(** * A shallow embedding of [src/base64.ts] and its specification

    The TypeScript module is translated function by function.  JavaScript
    strings are sequences of UTF-16 code units, numbers that go through the
    bitwise operators are 32-bit integers, the reverse alphabet is an object
    used as a map (a [gmap] keyed by property names), a [Uint8Array] is a
    fixed-length list of bytes whose out-of-range writes are ignored, and
    [throw] is an explicit error result. *)

From Stdlib Require Import ZArith List String Ascii QArith Qround Lia.
From Stdlib.Strings Require Import Byte.
From stdpp Require Import base gmap list option.
From Equations Require Import Equations.

Local Open Scope Z_scope.

(** ** The JavaScript fragment used by the module *)

Module JS.

(** Strings: lists of UTF-16 code units.  [lit] reads an ASCII literal. *)
Abbreviation jsstring := (list N).

Definition lit (s : string) : jsstring :=
  map N_of_ascii (list_ascii_of_string s).

Definition chr (a : ascii) : N := N_of_ascii a.

(** [s.length] *)
Definition strlen (s : jsstring) : Z := Z.of_nat (length s).

(** [s[i]]: a one-character string, or [undefined] out of range. *)
Definition char_at (s : jsstring) (i : Z) : option jsstring :=
  if i <? 0 then None else (λ c, [c]) <$> s !! Z.to_nat i.

(** A value used as a property name: [undefined] names the property
    ["undefined"]. *)
Definition property_key (v : option jsstring) : jsstring :=
  default (lit "undefined") v.

(** [a + b] on strings where an operand may be [undefined]. *)
Definition to_string (v : option jsstring) : jsstring :=
  default (lit "undefined") v.

(** [c.repeat(n)] for a count that is a non-negative integer. *)
Definition repeat_str (s : jsstring) (n : Z) : jsstring :=
  concat (replicate (Z.to_nat n) s).

(** [s.indexOf(c)] for a one-character needle; -1 when absent. *)
Fixpoint indexOf_from (c : N) (s : jsstring) (i : Z) : Z :=
  match s with
  | [] => -1
  | x :: t => if N.eqb x c then i else indexOf_from c t (i + 1)
  end.

Definition indexOf (s : jsstring) (c : N) : Z := indexOf_from c s 0.

(** [s.slice(start)] and [s.slice(start, stop)]: negative positions count
    from the end, and every position is clamped to the string. *)
Definition slice_pos (s : jsstring) (k : Z) : nat :=
  Z.to_nat (if k <? 0 then Z.max (strlen s + k) 0 else Z.min k (strlen s)).

Definition slice_from (s : jsstring) (start : Z) : jsstring :=
  drop (slice_pos s start) s.

Definition slice (s : jsstring) (start stop : Z) : jsstring :=
  take (slice_pos s stop - slice_pos s start) (drop (slice_pos s start) s).

(** The character class [\s]: WhiteSpace and LineTerminator code points. *)
Definition is_space (c : N) : bool :=
  ((9 <=? c) && (c <=? 13) || (c =? 32) || (c =? 160) || (c =? 5760)
   || (8192 <=? c) && (c <=? 8202) || (c =? 8232) || (c =? 8233)
   || (c =? 8239) || (c =? 8287) || (c =? 12288) || (c =? 65279))%N.

(** The ranges [0-9], [a-z] and [A-Z]. *)
Definition is_digit (c : N) : bool := ((48 <=? c) && (c <=? 57))%N.
Definition is_lower (c : N) : bool := ((97 <=? c) && (c <=? 122))%N.
Definition is_upper (c : N) : bool := ((65 <=? c) && (c <=? 90))%N.

(** [re.test(s)] for a pattern that is a single character class. *)
Definition test_class (cls : N → bool) (s : jsstring) : bool := existsb cls s.

(** [s.replace(/c+/g, "")] for a character class [c]: every maximal run of
    class characters is removed. *)
Definition remove_runs (cls : N → bool) (s : jsstring) : jsstring :=
  List.filter (λ c, negb (cls c)) s.

(** [s.replace(/c/g, r)] for a pattern matching one character. *)
Definition replace_all_class (cls : N → bool) (r : jsstring) (s : jsstring)
  : jsstring :=
  concat (map (λ c, if cls c then r else [c]) s).

(** [s.replace(/p$/, "")]: the match is tried at positions 0, 1, ... and the
    first position whose whole remainder matches [p] wins; that remainder is
    removed.  With the [g] flag the search resumes at the end of the string,
    where a pattern that needs a character cannot match again. *)
Fixpoint replace_at_end (p : jsstring → bool) (s : jsstring) : jsstring :=
  if p s then [] else
  match s with
  | [] => []
  | c :: t => c :: replace_at_end p t
  end.

Definition eq_sign : N := chr "=".

(** [={0,2}] against a whole remainder. *)
Definition match_pad_0_2 (s : jsstring) : bool :=
  match s with
  | [] => true
  | [a] => N.eqb a eq_sign
  | [a; b] => N.eqb a eq_sign && N.eqb b eq_sign
  | _ => false
  end.

(** [=+] against a whole remainder. *)
Definition match_pad_plus (s : jsstring) : bool :=
  match s with
  | [] => false
  | _ => forallb (λ c, N.eqb c eq_sign) s
  end.

(** 32-bit integers: the operands of [<<], [>>], [|] and [&] go through
    ToInt32, and the result of [<<] wraps. *)
Definition ToInt32 (z : Z) : Z := (z + 2 ^ 31) mod 2 ^ 32 - 2 ^ 31.

(** ToNumber then ToInt32 of a value that may be [undefined] (NaN, then 0). *)
Definition int32_of (v : option Z) : Z :=
  match v with Some z => ToInt32 z | None => 0 end.

Definition shl (a n : Z) : Z := ToInt32 (Z.shiftl (ToInt32 a) (n mod 32)).
Definition shr (a n : Z) : Z := Z.shiftr (ToInt32 a) (n mod 32).
Definition bor (a b : Z) : Z := Z.lor (ToInt32 a) (ToInt32 b).
Definition band (a b : Z) : Z := Z.land (ToInt32 a) (ToInt32 b).

(** Arrays with holes: [a[i] = x] extends the array, [a[i]] is [undefined]
    on a hole or out of range. *)
Definition array_set {A} (a : list (option A)) (i : nat) (x : A)
  : list (option A) :=
  if decide (i < length a)%nat then <[i := Some x]> a
  else a ++ replicate (i - length a) None ++ [Some x].

Definition array_get {A} (a : list (option A)) (i : Z) : option A :=
  if i <? 0 then None else mjoin (a !! Z.to_nat i).

(** Errors. *)
Inductive exn : Type :=
| Error (message : string)
| RangeError.

Inductive result (A : Type) : Type :=
| Ok (a : A)
| Throw (e : exn).
Arguments Ok {A} a.
Arguments Throw {A} e.

Definition bind {A B} (r : result A) (k : A → result B) : result B :=
  match r with
  | Ok a => k a
  | Throw e => Throw e
  end.

(** [Uint8Array]: elements are bytes. *)
Definition byte_val (b : byte) : Z := Z.of_N (Byte.to_N b).

Definition ToUint8 (z : Z) : byte :=
  default x00 (Byte.of_N (Z.to_N (z mod 256))).

(** [new Uint8Array(n)]: the length goes through ToIndex, which truncates
    towards zero and rejects a negative result. *)
Definition truncate (q : Q) : Z :=
  if Qlt_le_dec q 0 then Qceiling q else Qfloor q.

Definition Uint8Array_new (n : Q) : result (list byte) :=
  let k := truncate n in
  if k <? 0 then Throw RangeError else Ok (replicate (Z.to_nat k) x00).

(** [u[i]] as a number, [undefined] out of range. *)
Definition Uint8Array_get (u : list byte) (i : Z) : option Z :=
  if i <? 0 then None else byte_val <$> u !! Z.to_nat i.

(** [u[i] = v]: ignored out of range. *)
Definition Uint8Array_set (u : list byte) (i : Z) (v : Z) : list byte :=
  if i <? 0 then u else <[Z.to_nat i := ToUint8 v]> u.

(** The values [typeof] tells apart in this module. *)
Inductive any : Type :=
| Str (s : jsstring)
| NotStr.

End JS.

Import JS.

Notation "x ← r ;;; k" := (bind r (λ x, k))
  (at level 20, r at level 100, k at level 200, only parsing).

(** ** The alphabet tables (lines 1-13) *)

Definition code : jsstring :=
  lit "ABCDEFGHIJKLMNOPQRSTUVWXYZabcdefghijklmnopqrstuvwxyz0123456789+/".

(** The tables before the loop: [lookup = []] and
    [revLookup = { '-': 62, '_': 63 }]. *)
Definition lookup0 : list (option jsstring) := [].

Definition revLookup0 : gmap jsstring Z :=
  <[lit "-" := 62]> (<[lit "_" := 63]> ∅).

(** One iteration: [lookup[i] = code[i]; revLookup[code[i]] = i]. *)
Definition init_step (st : list (option jsstring) * gmap jsstring Z) (i : nat)
  : list (option jsstring) * gmap jsstring Z :=
  let ci := to_string (char_at code (Z.of_nat i)) in
  (array_set st.1 i ci, <[property_key (char_at code (Z.of_nat i)) := Z.of_nat i]> st.2).

(** [for (let i = 0, len = code.length; i < len; i++)] *)
Definition init_tables : list (option jsstring) * gmap jsstring Z :=
  foldl init_step (lookup0, revLookup0) (seq 0 (length code)).

Definition lookup : list (option jsstring) := init_tables.1.
Definition revLookup : gmap jsstring Z := init_tables.2.

(** ** The helpers (lines 42-93) *)

(** [base64.replace(/=+$/g, "").replace(/\+/g, "-").replace(/\//g, "_")] *)
Definition base64urlEncode (base64 : jsstring) : jsstring :=
  replace_all_class (N.eqb (chr "/")) (lit "_")
    (replace_all_class (N.eqb (chr "+")) (lit "-")
       (replace_at_end match_pad_plus base64)).

Definition getPaddingLength (base64 : jsstring) : Z :=
  Z.rem (4 - Z.rem (strlen base64) 4) 4.

Definition base64urlDecode (base64 : jsstring) : jsstring :=
  let padding := repeat_str (lit "=") (getPaddingLength base64) in
  let base64String :=
    replace_all_class (N.eqb (chr "_")) (lit "/")
      (replace_all_class (N.eqb (chr "-")) (lit "+") (base64 ++ padding)) in
  base64String.

(** The negated classes [[^\s0-9a-zA-Z+/]] and [[^\s0-9a-zA-Z\-_]]. *)
Definition not_standard_char (c : N) : bool :=
  negb (is_space c || is_digit c || is_lower c || is_upper c
        || N.eqb c (chr "+") || N.eqb c (chr "/")).

Definition not_urlsafe_char (c : N) : bool :=
  negb (is_space c || is_digit c || is_lower c || is_upper c
        || N.eqb c (chr "-") || N.eqb c (chr "_")).

Definition isValidBase64String (source : any) : bool :=
  match source with
  | NotStr => false
  | Str source =>
      let string := replace_at_end match_pad_0_2 (remove_runs is_space source) in
      negb (test_class not_standard_char string)
      || negb (test_class not_urlsafe_char string)
  end.

(** [(base64 + padding).length * 3 / 4 - paddingLength]: a quotient of
    numbers, not an integer division. *)
Definition getByteLength (base64 : jsstring) : Q :=
  let paddingLength := getPaddingLength base64 in
  let padding := repeat_str (lit "=") paddingLength in
  (inject_Z (strlen (base64 ++ padding) * 3) / 4 - inject_Z paddingLength)%Q.

(** ** [getBase64Info] (lines 132-166) *)

Record Base64Info : Type := {
  validString : jsstring;
  validLength : Z;
  paddingString : jsstring;
  paddingLength : Z;
  isUrlSafe : bool;
  isNormal : bool;
  urlSafeString : jsstring;
  normalString : jsstring
}.

Definition invalid_base64 : exn := Error "Invalid base64 string".

Definition getBase64Info (base64 : jsstring) : result Base64Info :=
  if negb (isValidBase64String (Str base64)) then Throw invalid_base64 else
  let length := strlen base64 in
  let base64 :=
    if Z.rem length 4 >? 0
    then base64 ++ repeat_str (lit "=") (getPaddingLength base64)
    else base64 in
  let index := indexOf base64 eq_sign in
  let validLength := if index >? 0 then index else strlen base64 in
  let paddingString := if index >? 0 then slice_from base64 index else [] in
  let validString := slice base64 0 validLength in
  let urlSafeString := base64urlEncode base64 in
  let normalString := base64urlDecode base64 in
  Ok {| validString := validString;
        validLength := validLength;
        paddingString := paddingString;
        paddingLength := strlen paddingString;
        isUrlSafe := bool_decide (base64 = urlSafeString);
        isNormal := bool_decide (base64 = normalString);
        urlSafeString := urlSafeString;
        normalString := normalString |}.

(** ** [fromUint8Array] (lines 173-204) *)

(** [lookup[k]] as an operand of string concatenation. *)
Definition lookup_str (k : Z) : jsstring := to_string (array_get lookup k).

(** The body of the loop: three bytes become four characters. *)
Definition encode_triplet (uint8Array : list byte) (i : Z) : jsstring :=
  let tmp :=
    bor (bor (shl (int32_of (Uint8Array_get uint8Array i)) 16)
             (shl (int32_of (Uint8Array_get uint8Array (i + 1))) 8))
        (int32_of (Uint8Array_get uint8Array (i + 2))) in
  lookup_str (band (shr tmp 18) 63) ++
  lookup_str (band (shr tmp 12) 63) ++
  lookup_str (band (shr tmp 6) 63) ++
  lookup_str (band tmp 63).

(** [for (let i = 0; i < forLen; i += 3) parts.push(...)] *)
Equations? encode_loop (uint8Array : list byte) (forLen i : Z)
  (parts : list jsstring) : list jsstring by wf (Z.to_nat (forLen - i)) lt :=
  encode_loop uint8Array forLen i parts with decide (i < forLen) => {
    | left _ =>
        encode_loop uint8Array forLen (i + 3)
          (parts ++ [encode_triplet uint8Array i]);
    | right _ => parts }.
Proof. lia. Qed.

Definition fromUint8Array (uint8Array : list byte) : jsstring :=
  let len := Z.of_nat (length uint8Array) in
  let extraBytes := Z.rem len 3 in
  let forLen := len - extraBytes in
  let parts := encode_loop uint8Array forLen 0 [] in
  let parts :=
    if extraBytes =? 1 then
      let tmp := default 0 (Uint8Array_get uint8Array (len - 1)) in
      parts ++ [lookup_str (shr tmp 2) ++ lookup_str (band (shl tmp 4) 63)
                ++ lit "=="]
    else if extraBytes =? 2 then
      let tmp :=
        shl (int32_of (Uint8Array_get uint8Array (len - 2))) 8
        + default 0 (Uint8Array_get uint8Array (len - 1)) in
      parts ++ [lookup_str (shr tmp 10) ++ lookup_str (band (shr tmp 4) 63)
                ++ lookup_str (band (shl tmp 2) 63) ++ lit "="]
    else parts in
  concat parts.

(** ** [toUint8Array] (lines 211-246) *)

(** [revLookup[base64[i]]] as an operand of a bitwise operator. *)
Definition rev_at (base64 : jsstring) (i : Z) : Z :=
  int32_of (revLookup !! property_key (char_at base64 i)).

(** The body of the loop: four characters become three bytes, written at
    [currentByte], [currentByte + 1] and [currentByte + 2]. *)
Definition decode_quad (base64 : jsstring) (i currentByte : Z)
  (uint8Array : list byte) : list byte :=
  let tmp :=
    bor (bor (bor (shl (rev_at base64 i) 18) (shl (rev_at base64 (i + 1)) 12))
             (shl (rev_at base64 (i + 2)) 6))
        (rev_at base64 (i + 3)) in
  let uint8Array := Uint8Array_set uint8Array currentByte (band (shr tmp 16) 255) in
  let uint8Array := Uint8Array_set uint8Array (currentByte + 1) (band (shr tmp 8) 255) in
  Uint8Array_set uint8Array (currentByte + 2) (band tmp 255).

(** [for (; i < len; i += 4)] with [len = Math.min(validLength / 4)], a
    quotient of numbers.  The loop returns [i], [currentByte] and the array. *)
Equations? decode_loop (base64 : jsstring) (len : Q) (i currentByte : Z)
  (uint8Array : list byte) : Z * Z * list byte
  by wf (Z.to_nat (Qceiling len - i)) lt :=
  decode_loop base64 len i currentByte uint8Array
    with Qlt_le_dec (inject_Z i) len => {
    | left _ =>
        decode_loop base64 len (i + 4) (currentByte + 3)
          (decode_quad base64 i currentByte uint8Array);
    | right _ => (i, currentByte, uint8Array) }.
Proof.
  assert (i < Qceiling len).
  { rewrite Zlt_Qlt. eapply Qlt_le_trans; [eassumption | apply Qle_ceiling]. }
  lia.
Qed.

Definition toUint8Array (base64 : jsstring) : result (list byte) :=
  info ← getBase64Info base64 ;;;
  let byteLength := getByteLength base64 in
  uint8Array ← Uint8Array_new byteLength ;;;
  let len := (inject_Z (validLength info) / 4)%Q in
  let '(i, currentByte, uint8Array) := decode_loop base64 len 0 0 uint8Array in
  let '(currentByte, uint8Array) :=
    if paddingLength info =? 2 then
      let tmp := bor (shl (rev_at base64 i) 2) (shr (rev_at base64 (i + 1)) 4) in
      (currentByte + 1, Uint8Array_set uint8Array currentByte (band tmp 255))
    else (currentByte, uint8Array) in
  let '(currentByte, uint8Array) :=
    if paddingLength info =? 1 then
      let tmp :=
        bor (bor (shl (rev_at base64 i) 10) (shl (rev_at base64 (i + 1)) 4))
            (shr (rev_at base64 (i + 2)) 2) in
      let uint8Array := Uint8Array_set uint8Array currentByte (band (shr tmp 8) 255) in
      (currentByte + 2, Uint8Array_set uint8Array (currentByte + 1) (band tmp 255))
    else (currentByte, uint8Array) in
  Ok uint8Array.

(** ** What the specification says, in its own words *)

(** The URL-safe alphabet: positions 62 and 63 are [-] and [_]. *)
Definition url_code : jsstring :=
  lit "ABCDEFGHIJKLMNOPQRSTUVWXYZabcdefghijklmnopqrstuvwxyz0123456789-_".

(** What the validator looks at: the input without whitespace and without a
    run of up to two trailing [=]. *)
Definition stripped (source : jsstring) : jsstring :=
  replace_at_end match_pad_0_2 (remove_runs is_space source).

(** The byte length of section 4.5, from the metadata of section 4.4:
    [(validLen + paddingLen) * 3/4 - paddingLen]. *)
Definition spec_byte_length (info : Base64Info) : Q :=
  (inject_Z ((validLength info + paddingLength info) * 3) / 4
   - inject_Z (paddingLength info))%Q.

(** A byte buffer from its values. *)
Definition bytes (l : list Z) : list byte := map ToUint8 l.

(** What the tables hold for a character [c] with reverse entry [k]. *)
Definition table_entry_ok (c : jsstring) (k : Z) : Prop :=
  (c ≠ lit "-" → c ≠ lit "_" → array_get lookup k = Some c)
  ∧ (c = lit "-" → k = 62 ∧ array_get lookup k = Some (lit "+"))
  ∧ (c = lit "_" → k = 63 ∧ array_get lookup k = Some (lit "/")).

(** Characters of the standard alphabet. *)
Definition code_chars (s : jsstring) : Prop := Forall (λ c, c ∈ code) s.

(** The URL-safe rendering of one standard character. *)
Definition urlsafe_char (x : N) : jsstring :=
  replace_all_class (N.eqb (chr "/")) (lit "_")
    (replace_all_class (N.eqb (chr "+")) (lit "-") [x]).

(** The last part [fromUint8Array] pushes, for one or two extra bytes. *)
Definition encode_tail (uint8Array : list byte) : jsstring :=
  let len := Z.of_nat (length uint8Array) in
  let extraBytes := Z.rem len 3 in
  if extraBytes =? 1 then
    let tmp := default 0 (Uint8Array_get uint8Array (len - 1)) in
    lookup_str (shr tmp 2) ++ lookup_str (band (shl tmp 4) 63) ++ lit "=="
  else if extraBytes =? 2 then
    let tmp :=
      shl (int32_of (Uint8Array_get uint8Array (len - 2))) 8
      + default 0 (Uint8Array_get uint8Array (len - 1)) in
    lookup_str (shr tmp 10) ++ lookup_str (band (shr tmp 4) 63)
    ++ lookup_str (band (shl tmp 2) 63) ++ lit "="
  else [].

(** What [base64urlDecode] does to one character: [-] becomes [+] and [_]
    becomes [/]. *)
Definition to_standard (c : N) : N :=
  let d := if N.eqb (chr "-") c then chr "+" else c in
  if N.eqb (chr "_") d then chr "/" else d.

(** ** The tables as module state

    [lookup] and [revLookup] are module-level variables: the loop of lines
    10-13 writes them, and every function reads them through the module's
    scope.  Here the functions that read them take the tables as a state
    and hand the state back, so that what a call does to the tables can be
    stated. *)

Record tables : Type := {
  tbl_lookup : list (option jsstring);
  tbl_revLookup : gmap jsstring Z
}.

(** The state when the initialisation loop has run. *)
Definition initialized : tables :=
  {| tbl_lookup := init_tables.1; tbl_revLookup := init_tables.2 |}.

Section WithTables.

Variable t : tables.

Definition lookup_str_in (k : Z) : jsstring :=
  to_string (array_get (tbl_lookup t) k).

Definition rev_at_in (base64 : jsstring) (i : Z) : Z :=
  int32_of (tbl_revLookup t !! property_key (char_at base64 i)).

Definition encode_triplet_in (uint8Array : list byte) (i : Z) : jsstring :=
  let tmp :=
    bor (bor (shl (int32_of (Uint8Array_get uint8Array i)) 16)
             (shl (int32_of (Uint8Array_get uint8Array (i + 1))) 8))
        (int32_of (Uint8Array_get uint8Array (i + 2))) in
  lookup_str_in (band (shr tmp 18) 63) ++
  lookup_str_in (band (shr tmp 12) 63) ++
  lookup_str_in (band (shr tmp 6) 63) ++
  lookup_str_in (band tmp 63).

Equations? encode_loop_in (uint8Array : list byte) (forLen i : Z)
  (parts : list jsstring) : list jsstring by wf (Z.to_nat (forLen - i)) lt :=
  encode_loop_in uint8Array forLen i parts with decide (i < forLen) => {
    | left _ =>
        encode_loop_in uint8Array forLen (i + 3)
          (parts ++ [encode_triplet_in uint8Array i]);
    | right _ => parts }.
Proof. lia. Qed.

Definition fromUint8Array_in (uint8Array : list byte) : jsstring :=
  let len := Z.of_nat (length uint8Array) in
  let extraBytes := Z.rem len 3 in
  let forLen := len - extraBytes in
  let parts := encode_loop_in uint8Array forLen 0 [] in
  let parts :=
    if extraBytes =? 1 then
      let tmp := default 0 (Uint8Array_get uint8Array (len - 1)) in
      parts ++ [lookup_str_in (shr tmp 2) ++ lookup_str_in (band (shl tmp 4) 63)
                ++ lit "=="]
    else if extraBytes =? 2 then
      let tmp :=
        shl (int32_of (Uint8Array_get uint8Array (len - 2))) 8
        + default 0 (Uint8Array_get uint8Array (len - 1)) in
      parts ++ [lookup_str_in (shr tmp 10) ++ lookup_str_in (band (shr tmp 4) 63)
                ++ lookup_str_in (band (shl tmp 2) 63) ++ lit "="]
    else parts in
  concat parts.

Definition decode_quad_in (base64 : jsstring) (i currentByte : Z)
  (uint8Array : list byte) : list byte :=
  let tmp :=
    bor (bor (bor (shl (rev_at_in base64 i) 18) (shl (rev_at_in base64 (i + 1)) 12))
             (shl (rev_at_in base64 (i + 2)) 6))
        (rev_at_in base64 (i + 3)) in
  let uint8Array := Uint8Array_set uint8Array currentByte (band (shr tmp 16) 255) in
  let uint8Array := Uint8Array_set uint8Array (currentByte + 1) (band (shr tmp 8) 255) in
  Uint8Array_set uint8Array (currentByte + 2) (band tmp 255).

Equations? decode_loop_in (base64 : jsstring) (len : Q) (i currentByte : Z)
  (uint8Array : list byte) : Z * Z * list byte
  by wf (Z.to_nat (Qceiling len - i)) lt :=
  decode_loop_in base64 len i currentByte uint8Array
    with Qlt_le_dec (inject_Z i) len => {
    | left _ =>
        decode_loop_in base64 len (i + 4) (currentByte + 3)
          (decode_quad_in base64 i currentByte uint8Array);
    | right _ => (i, currentByte, uint8Array) }.
Proof.
  assert (i < Qceiling len).
  { rewrite Zlt_Qlt. eapply Qlt_le_trans; [eassumption | apply Qle_ceiling]. }
  lia.
Qed.

Definition toUint8Array_in (base64 : jsstring) : result (list byte) :=
  info ← getBase64Info base64 ;;;
  let byteLength := getByteLength base64 in
  uint8Array ← Uint8Array_new byteLength ;;;
  let len := (inject_Z (validLength info) / 4)%Q in
  let '(i, currentByte, uint8Array) := decode_loop_in base64 len 0 0 uint8Array in
  let '(currentByte, uint8Array) :=
    if paddingLength info =? 2 then
      let tmp :=
        bor (shl (rev_at_in base64 i) 2) (shr (rev_at_in base64 (i + 1)) 4) in
      (currentByte + 1, Uint8Array_set uint8Array currentByte (band tmp 255))
    else (currentByte, uint8Array) in
  let '(currentByte, uint8Array) :=
    if paddingLength info =? 1 then
      let tmp :=
        bor (bor (shl (rev_at_in base64 i) 10) (shl (rev_at_in base64 (i + 1)) 4))
            (shr (rev_at_in base64 (i + 2)) 2) in
      let uint8Array := Uint8Array_set uint8Array currentByte (band (shr tmp 8) 255) in
      (currentByte + 2, Uint8Array_set uint8Array (currentByte + 1) (band tmp 255))
    else (currentByte, uint8Array) in
  Ok uint8Array.

End WithTables.

(** A call of one of the module's functions.  [decodeBase64] and
    [encodeBase64] (lines 100-125) hand the conversion to [window.atob],
    [window.btoa] and the text codecs and mention neither table. *)
Inductive call : Type :=
| Call_getBase64Info (base64 : jsstring)
| Call_fromUint8Array (uint8Array : list byte)
| Call_toUint8Array (base64 : jsstring)
| Call_decodeBase64 (base64 : jsstring) (urlSafe : bool)
| Call_encodeBase64 (text : jsstring) (urlSafe : bool).

Inductive answer : Type :=
| Info (r : result Base64Info)
| Text (s : jsstring)
| Bytes (r : result (list byte))
| Raised (e : exn)
| Delegated.

(** What a call returns and the tables it leaves. *)
Definition exec (c : call) (t : tables) : answer * tables :=
  match c with
  | Call_getBase64Info base64 => (Info (getBase64Info base64), t)
  | Call_fromUint8Array uint8Array => (Text (fromUint8Array_in t uint8Array), t)
  | Call_toUint8Array base64 => (Bytes (toUint8Array_in t base64), t)
  | Call_decodeBase64 base64 urlSafe =>
      if negb (isValidBase64String (Str base64))
      then (Raised invalid_base64, t)
      else (Delegated, t)
  | Call_encodeBase64 text urlSafe => (Delegated, t)
  end.

(** A sequence of calls, each on the tables the previous one left. *)
Fixpoint run (cs : list call) (t : tables) : list answer * tables :=
  match cs with
  | [] => ([], t)
  | c :: cs =>
      let '(a, t') := exec c t in
      let '(r, t'') := run cs t' in
      (a :: r, t'')
  end.

(** The characters of the input from its first [=] to its end (none when
    it has no [=]). *)
Definition chars_from_first_pad (s : jsstring) : Z :=
  if indexOf s eq_sign <? 0 then 0 else strlen s - indexOf s eq_sign.

(** * Properties *)

(** ** Running the code on the vectors of the specification *)

Example run_encode_M : fromUint8Array (bytes [77]) = lit "TQ==".
Proof. vm_compute. reflexivity. Qed.

Example run_encode_Man : fromUint8Array (bytes [77; 97; 110]) = lit "TWFu".
Proof. vm_compute. reflexivity. Qed.

Example run_encode_hello :
  fromUint8Array (bytes [104; 101; 108; 108; 111]) = lit "aGVsbG8=".
Proof. vm_compute. reflexivity. Qed.

Example run_urlsafe_hello :
  base64urlEncode (lit "aGVsbG8=") = lit "aGVsbG8".
Proof. vm_compute. reflexivity. Qed.

Example run_decode_Man : toUint8Array (lit "TWFu") = Ok (bytes [77; 97; 110]).
Proof. vm_compute. reflexivity. Qed.

Example run_decode_unpadded : toUint8Array (lit "TQ") = Ok (bytes [77]).
Proof. vm_compute. reflexivity. Qed.

Example run_valid_empty : isValidBase64String (Str []) = true.
Proof. reflexivity. Qed.

Example run_valid_number : isValidBase64String NotStr = false.
Proof. reflexivity. Qed.

Example run_invalid : toUint8Array (lit "not base64!!") = Throw invalid_base64.
Proof. vm_compute. reflexivity. Qed.

(** ** The alphabet tables *)

Lemma lookup_is_code : lookup = map (λ c, Some [c]) code.
Proof. vm_compute. reflexivity. Qed.

Lemma revLookup_size : size revLookup = 66%nat.
Proof. vm_compute. reflexivity. Qed.

Lemma lookup_length : length lookup = 64%nat.
Proof. vm_compute. reflexivity. Qed.

Ltac solve_table_entry :=
  unfold uncurry, table_entry_ok; cbn [fst snd];
  repeat split; intros;
  try (vm_compute; reflexivity);
  try (exfalso; match goal with
                | H : _ = _ |- _ => vm_compute in H; discriminate H
                end);
  try (exfalso; match goal with
                | H : _ ≠ _ |- _ => apply H; vm_compute; reflexivity
                end).

Lemma revLookup_entries : map_Forall table_entry_ok revLookup.
Proof.
  apply map_Forall_to_list.
  vm_compute map_to_list.
  repeat (apply Forall_cons_2; [solve_table_entry |]).
  apply Forall_nil_2.
Qed.

(** C7, as stated, fails on the alias [-]: its reverse entry is 62, and the
    forward entry 62 is [+]. *)
Lemma C7_alias_counterexample :
  ¬ (∀ k, revLookup !! lit "-" = Some k → array_get lookup k = Some (lit "-")).
Proof.
  intros H. specialize (H 62). vm_compute in H.
  specialize (H eq_refl). discriminate.
Qed.

Lemma code_entries (x : N) :
  x ∈ code →
  ∃ k, revLookup !! [x] = Some k ∧ array_get lookup k = Some [x].
Proof.
  assert (F : forallb
    (λ x, match revLookup !! [x] with
          | Some k => bool_decide (array_get lookup k = Some [x])
          | None => false
          end) code = true) by (vm_compute; reflexivity).
  rewrite forallb_forall in F. intros Hx.
  apply list_elem_of_In, F in Hx.
  destruct (revLookup !! [x]) as [k|]; [| discriminate Hx].
  exists k. split; [reflexivity |]. apply bool_decide_eq_true in Hx. exact Hx.
Qed.

(** The characters that have an entry in the reverse table. *)
Lemma revLookup_domain (c : jsstring) (k : Z) :
  revLookup !! c = Some k →
  ∃ x, c = [x] ∧ (x ∈ code ∨ x = chr "-" ∨ x = chr "_").
Proof.
  revert c k.
  change (map_Forall
    (λ c _, ∃ x, c = [x] ∧ (x ∈ code ∨ x = chr "-" ∨ x = chr "_")) revLookup).
  apply map_Forall_to_list. vm_compute map_to_list.
  repeat (apply Forall_cons_2;
    [ eexists; split; [reflexivity |];
      first [ right; left; reflexivity
            | right; right; reflexivity
            | left; apply list_elem_of_In; vm_compute;
              repeat (first [left; reflexivity | right]) ]
    | ]).
  apply Forall_nil_2.
Qed.

(** No call changes the tables. *)
Lemma exec_tables (c : call) (t : tables) : (exec c t).2 = t.
Proof.
  destruct c; cbn [exec]; try reflexivity.
  destruct (negb (isValidBase64String (Str base64))); reflexivity.
Qed.

Lemma run_tables (cs : list call) (t : tables) : (run cs t).2 = t.
Proof.
  revert t. induction cs as [|c cs IH]; intros t; [reflexivity |].
  cbn [run]. pose proof (exec_tables c t) as Hc.
  destruct (exec c t) as [a t']. cbn [snd] in Hc. subst t'.
  pose proof (IH t) as Hr. destruct (run cs t) as [r t'']. exact Hr.
Qed.

(** C7 (amended): each of the 64 standard characters has an entry in the
    reverse table, and the forward table maps that entry back to the
    character; the aliases [-] and [_] have the entries 62 and 63, whose
    forward entries are [+] and [/]; the reverse table has no other entry;
    and after initialization no sequence of calls of the module's functions
    changes either table. *)
Theorem C7_forward_of_reverse :
  (∀ x, x ∈ code →
     ∃ k, revLookup !! [x] = Some k ∧ array_get lookup k = Some [x])
  ∧ (revLookup !! lit "-" = Some 62 ∧ array_get lookup 62 = Some (lit "+"))
  ∧ (revLookup !! lit "_" = Some 63 ∧ array_get lookup 63 = Some (lit "/"))
  ∧ (∀ c k, revLookup !! c = Some k →
       ∃ x, c = [x] ∧ (x ∈ code ∨ x = chr "-" ∨ x = chr "_"))
  ∧ (∀ cs, (run cs initialized).2 = initialized).
Proof.
  split; [exact code_entries |].
  split; [split; vm_compute; reflexivity |].
  split; [split; vm_compute; reflexivity |].
  split; [exact revLookup_domain |].
  intros cs. apply run_tables.
Qed.

Lemma C7_forward_of_reverse_witness :
  ∃ k, revLookup !! lit "Q" = Some k ∧ array_get lookup k = Some (lit "Q").
Proof.
  apply (proj1 C7_forward_of_reverse (chr "Q")).
  apply list_elem_of_In. vm_compute.
  repeat (first [left; reflexivity | right]).
Defined.

(** ** The decoder on padded input *)

(** C3: the metadata of ["TQ=="] is as the specification says, but the
    decoder returns three bytes, not one. *)
Theorem C3_decode_TQ_padded :
  (∃ info, getBase64Info (lit "TQ==") = Ok info
           ∧ paddingLength info = 2 ∧ validLength info = 2)
  ∧ toUint8Array (lit "TQ==") = Ok (bytes [77; 0; 0]).
Proof.
  split; [eexists; split; [vm_compute; reflexivity | split; reflexivity] |].
  vm_compute. reflexivity.
Qed.

(** C4: on the accepted input ["TQ=="] the metadata gives the byte length 1,
    and the returned buffer has length 3. *)
Theorem C4_byte_length_TQ_padded :
  isValidBase64String (Str (lit "TQ==")) = true
  ∧ ∃ info u, getBase64Info (lit "TQ==") = Ok info
      ∧ toUint8Array (lit "TQ==") = Ok u
      ∧ (spec_byte_length info == 1)%Q
      ∧ length u = 3%nat.
Proof.
  split; [vm_compute; reflexivity |].
  eexists; eexists.
  split; [vm_compute; reflexivity |].
  split; [vm_compute; reflexivity |].
  split; [vm_compute; reflexivity | reflexivity].
Qed.

(** C1: the round trip fails on the one-byte buffer [0x4D] (the decoded
    buffer is too long) and on the six bytes of "ManMan" (only the first
    group is decoded). *)
Theorem C1_round_trip_fails :
  toUint8Array (fromUint8Array (bytes [77])) = Ok (bytes [77; 0; 0])
  ∧ toUint8Array (fromUint8Array (bytes [77; 97; 110; 77; 97; 110]))
    = Ok (bytes [77; 97; 110; 0; 0; 0]).
Proof. split; vm_compute; reflexivity. Qed.

(** ** Regular-expression helpers *)

Lemma replace_at_end_match (p : jsstring → bool) (s : jsstring) :
  p s = true → replace_at_end p s = [].
Proof. intros H. destruct s; simpl; rewrite H; reflexivity. Qed.

Lemma replace_at_end_cons (p : jsstring → bool) (c : N) (t : jsstring) :
  replace_at_end p (c :: t) = if p (c :: t) then [] else c :: replace_at_end p t.
Proof. reflexivity. Qed.

Lemma replace_at_end_split (p : jsstring → bool) (s : jsstring) :
  p [] = true → ∃ r, s = replace_at_end p s ++ r ∧ p r = true.
Proof.
  intros Hnil. induction s as [|c t IH].
  - exists []. simpl. rewrite Hnil. split; reflexivity.
  - destruct (p (c :: t)) eqn:E.
    + exists (c :: t). rewrite replace_at_end_match by exact E. split; [reflexivity | exact E].
    + destruct IH as [r [Hr Hp]]. exists r. simpl. rewrite E. simpl.
      split; [f_equal; exact Hr | exact Hp].
Qed.

Lemma match_pad_0_2_spec (r : jsstring) :
  match_pad_0_2 r = true ↔ r = [] ∨ r = [eq_sign] ∨ r = [eq_sign; eq_sign].
Proof.
  split.
  - destruct r as [|a [|b [|c t]]]; simpl; intros H; try discriminate.
    + left; reflexivity.
    + apply N.eqb_eq in H. subst. right; left; reflexivity.
    + apply andb_true_iff in H as [Ha Hb].
      apply N.eqb_eq in Ha, Hb. subst. right; right; reflexivity.
  - intros [-> | [-> | ->]]; reflexivity.
Qed.

Lemma match_pad_0_2_head (c : N) (t : jsstring) :
  c ≠ eq_sign → match_pad_0_2 (c :: t) = false.
Proof.
  intros Hc. apply N.eqb_neq in Hc.
  destruct t as [|b [|d t]]; simpl; rewrite ?Hc; reflexivity.
Qed.

Lemma match_pad_plus_head (c : N) (t : jsstring) :
  c ≠ eq_sign → match_pad_plus (c :: t) = false.
Proof. intros Hc. apply N.eqb_neq in Hc. simpl. rewrite Hc. reflexivity. Qed.

(** Stripping [={0,2}$] from characters followed by at most two [=] leaves
    the characters. *)
Lemma strip_pad_0_2_app (body pad : jsstring) :
  eq_sign ∉ body → match_pad_0_2 pad = true →
  replace_at_end match_pad_0_2 (body ++ pad) = body.
Proof.
  intros Hbody Hpad. induction body as [|c body IH]; simpl app.
  - apply replace_at_end_match, Hpad.
  - apply not_elem_of_cons in Hbody as [Hc Hbody].
    rewrite replace_at_end_cons, match_pad_0_2_head by congruence.
    f_equal. apply IH, Hbody.
Qed.

(** Stripping [=+$] from characters followed by a run of [=] leaves the
    characters. *)
Lemma strip_pad_plus_app (body pad : jsstring) :
  eq_sign ∉ body → Forall (λ c, c = eq_sign) pad →
  replace_at_end match_pad_plus (body ++ pad) = body.
Proof.
  intros Hbody Hpad. induction body as [|c body IH]; simpl app.
  - destruct pad as [|a pad]; [reflexivity |].
    apply replace_at_end_match. simpl.
    apply Forall_cons_1 in Hpad as [-> Hpad].
    rewrite N.eqb_refl. simpl.
    apply forallb_forall. intros x Hx. apply N.eqb_eq.
    rewrite Forall_forall in Hpad. apply Hpad, Hx.
  - apply not_elem_of_cons in Hbody as [Hc Hbody].
    rewrite replace_at_end_cons, match_pad_plus_head by congruence.
    f_equal. apply IH, Hbody.
Qed.

Lemma remove_runs_id (cls : N → bool) (s : jsstring) :
  Forall (λ c, cls c = false) s → remove_runs cls s = s.
Proof.
  unfold remove_runs. induction 1 as [|c s Hc _ IH]; simpl; [reflexivity |].
  rewrite Hc. simpl. f_equal. exact IH.
Qed.

Lemma remove_runs_elem (cls : N → bool) (s : jsstring) (c : N) :
  c ∈ remove_runs cls s ↔ c ∈ s ∧ cls c = false.
Proof.
  unfold remove_runs. rewrite !list_elem_of_In, filter_In, negb_true_iff.
  reflexivity.
Qed.

(** ** Character classes and the alphabets *)

Lemma below_forall (P : N → bool) (n : nat) :
  forallb P (map N.of_nat (seq 0 n)) = true →
  ∀ c, (c < N.of_nat n)%N → P c = true.
Proof.
  intros H c Hc. rewrite forallb_forall in H. apply H.
  apply in_map_iff. exists (N.to_nat c). split; [apply N2Nat.id |].
  apply in_seq. lia.
Qed.

Ltac solve_elem :=
  apply list_elem_of_In; vm_compute; repeat (first [left; reflexivity | right]).

Ltac split_comparisons :=
  repeat match goal with
         | |- context [N.leb ?a ?b] => destruct (N.leb_spec a b)
         | |- context [N.eqb ?a ?b] => destruct (N.eqb_spec a b)
         end.

Lemma code_below_128 (c : N) : c ∈ code ∨ c ∈ url_code → (c < 128)%N.
Proof.
  assert (F : forallb (λ c, c <? 128)%N (code ++ url_code) = true)
    by (vm_compute; reflexivity).
  rewrite forallb_forall in F.
  intros Hc. apply N.ltb_lt, F, list_elem_of_In, elem_of_app, Hc.
Qed.

(** Outside whitespace, the first class of the validator is the complement
    of the standard alphabet. *)
Lemma standard_class (c : N) :
  is_space c = false → (not_standard_char c = false ↔ c ∈ code).
Proof.
  intros Hs.
  destruct (N.lt_ge_cases c 128) as [Hlt | Hge].
  - assert (F : forallb
      (λ c, is_space c
            || Bool.eqb (negb (not_standard_char c)) (bool_decide (c ∈ code)))
      (map N.of_nat (seq 0 128)) = true) by (vm_compute; reflexivity).
    pose proof (below_forall _ 128 F c Hlt) as H.
    simpl in H. rewrite Hs in H. simpl in H. apply Bool.eqb_prop in H.
    rewrite <- (bool_decide_eq_true (c ∈ code)), <- H, negb_true_iff.
    reflexivity.
  - split.
    + intros H. exfalso. revert H. unfold not_standard_char. rewrite Hs.
      unfold is_digit, is_lower, is_upper, chr. simpl.
      split_comparisons; simpl; try discriminate; lia.
    + intros H. pose proof (code_below_128 c (or_introl H)). lia.
Qed.

(** Outside whitespace, the second class of the validator is the complement
    of the URL-safe alphabet. *)
Lemma urlsafe_class (c : N) :
  is_space c = false → (not_urlsafe_char c = false ↔ c ∈ url_code).
Proof.
  intros Hs.
  destruct (N.lt_ge_cases c 128) as [Hlt | Hge].
  - assert (F : forallb
      (λ c, is_space c
            || Bool.eqb (negb (not_urlsafe_char c)) (bool_decide (c ∈ url_code)))
      (map N.of_nat (seq 0 128)) = true) by (vm_compute; reflexivity).
    pose proof (below_forall _ 128 F c Hlt) as H.
    simpl in H. rewrite Hs in H. simpl in H. apply Bool.eqb_prop in H.
    rewrite <- (bool_decide_eq_true (c ∈ url_code)), <- H, negb_true_iff.
    reflexivity.
  - split.
    + intros H. exfalso. revert H. unfold not_urlsafe_char. rewrite Hs.
      unfold is_digit, is_lower, is_upper, chr. simpl.
      split_comparisons; simpl; try discriminate; lia.
    + intros H. pose proof (code_below_128 c (or_intror H)). lia.
Qed.

Lemma test_class_false (cls : N → bool) (s : jsstring) :
  test_class cls s = false ↔ ∀ c, c ∈ s → cls c = false.
Proof.
  unfold test_class. induction s as [|x s IH]; simpl.
  - split; [intros _ c Hc; inversion Hc | reflexivity].
  - rewrite orb_false_iff, IH. split.
    + intros [Hx Hs] c Hc. apply elem_of_cons in Hc as [-> | Hc]; auto.
    + intros H. split; [apply H; left | intros c Hc; apply H; right; exact Hc].
Qed.

Lemma stripped_no_space (s : jsstring) (c : N) :
  c ∈ stripped s → is_space c = false.
Proof.
  unfold stripped. intros Hc.
  destruct (replace_at_end_split match_pad_0_2 (remove_runs is_space s) eq_refl)
    as [r [Hr _]].
  assert (Hin : c ∈ remove_runs is_space s)
    by (rewrite Hr; apply elem_of_app; left; exact Hc).
  apply remove_runs_elem in Hin. apply Hin.
Qed.

(** A character that is neither whitespace nor [=] survives the stripping. *)
Lemma stripped_keeps (s : jsstring) (c : N) :
  c ∈ s → is_space c = false → c ≠ eq_sign → c ∈ stripped s.
Proof.
  intros Hc Hs Hne. unfold stripped.
  destruct (replace_at_end_split match_pad_0_2 (remove_runs is_space s) eq_refl)
    as [r [Hr Hp]].
  assert (Hin : c ∈ remove_runs is_space s) by (apply remove_runs_elem; auto).
  rewrite Hr in Hin. apply elem_of_app in Hin as [Hin | Hin]; [exact Hin |].
  exfalso. apply match_pad_0_2_spec in Hp as [-> | [-> | ->]].
  - inversion Hin.
  - apply list_elem_of_singleton in Hin. contradiction.
  - apply elem_of_cons in Hin as [-> | Hin]; [contradiction |].
    apply list_elem_of_singleton in Hin. contradiction.
Qed.

(** The validator accepts exactly the strings whose stripped form is within
    one alphabet. *)
Lemma isValid_iff (s : jsstring) :
  isValidBase64String (Str s) = true
  ↔ (∀ c, c ∈ stripped s → c ∈ code) ∨ (∀ c, c ∈ stripped s → c ∈ url_code).
Proof.
  unfold isValidBase64String. fold (stripped s).
  rewrite orb_true_iff, !negb_true_iff, !test_class_false.
  split.
  - intros [H | H]; [left | right]; intros c Hc.
    + apply standard_class; [eapply stripped_no_space | apply H]; exact Hc.
    + apply urlsafe_class; [eapply stripped_no_space | apply H]; exact Hc.
  - intros [H | H]; [left | right]; intros c Hc.
    + apply standard_class; [eapply stripped_no_space | apply H]; exact Hc.
    + apply urlsafe_class; [eapply stripped_no_space | apply H]; exact Hc.
Qed.

(** ** The validator *)

(** C2, as stated, fails on ["+-"]: both characters are in the union of the
    alphabets, and the validator rejects the string. *)
Lemma C2_mixed_counterexample :
  ¬ ((∀ c, c ∈ stripped (lit "+-") → c ∈ code ∨ c ∈ url_code) →
     isValidBase64String (Str (lit "+-")) = true).
Proof.
  intros H. assert (E : isValidBase64String (Str (lit "+-")) = false)
    by (vm_compute; reflexivity).
  rewrite H in E; [discriminate |].
  intros c Hc. vm_compute in Hc.
  apply elem_of_cons in Hc as [-> | Hc].
  - left. solve_elem.
  - apply list_elem_of_singleton in Hc as ->.
    right. solve_elem.
Qed.

(** C2 (amended): a string is accepted when its characters, after stripping
    whitespace and a run of 0-2 trailing [=], are all drawn from the standard
    alphabet, or all drawn from the URL-safe alphabet; a string that holds
    both a standard-only character ([+] or [/]) and a URL-safe-only character
    ([-] or [_]) is rejected. *)
Theorem C2_validator_one_alphabet (s : jsstring) :
  ((∀ c, c ∈ stripped s → c ∈ code) ∨ (∀ c, c ∈ stripped s → c ∈ url_code) →
   isValidBase64String (Str s) = true)
  ∧ (∀ a b, a ∈ s → b ∈ s → a ∈ lit "+/" → b ∈ lit "-_" →
     isValidBase64String (Str s) = false).
Proof.
  split; [apply isValid_iff |].
  intros a b Ha Hb Hstd Hurl.
  assert (Ha' : a ∈ stripped s ∧ not_urlsafe_char a = true).
  { vm_compute in Hstd.
    apply elem_of_cons in Hstd as [-> | Hstd];
      [| apply list_elem_of_singleton in Hstd as ->];
      (split; [apply stripped_keeps; [exact Ha | reflexivity | discriminate]
              | reflexivity]). }
  assert (Hb' : b ∈ stripped s ∧ not_standard_char b = true).
  { vm_compute in Hurl.
    apply elem_of_cons in Hurl as [-> | Hurl];
      [| apply list_elem_of_singleton in Hurl as ->];
      (split; [apply stripped_keeps; [exact Hb | reflexivity | discriminate]
              | reflexivity]). }
  unfold isValidBase64String. fold (stripped s).
  apply orb_false_iff. rewrite !negb_false_iff. unfold test_class.
  split; apply existsb_exists.
  - exists b. split; [apply list_elem_of_In |]; apply Hb'.
  - exists a. split; [apply list_elem_of_In |]; apply Ha'.
Qed.

Lemma C2_validator_one_alphabet_witness :
  isValidBase64String (Str (lit "TQ==")) = true
  ∧ isValidBase64String (Str (lit "a+b-")) = false.
Proof.
  split.
  - apply (proj1 (C2_validator_one_alphabet (lit "TQ=="))).
    left. intros c Hc. vm_compute in Hc.
    apply elem_of_cons in Hc as [-> | Hc]; [solve_elem |].
    apply list_elem_of_singleton in Hc as ->. solve_elem.
  - apply (proj2 (C2_validator_one_alphabet (lit "a+b-")) (chr "+") (chr "-"));
      solve_elem.
Defined.

(** ** 32-bit arithmetic on small values *)

Ltac div_lia := Z.to_euclidean_division_equations; lia.

Lemma ToInt32_small (z : Z) : - 2 ^ 31 ≤ z < 2 ^ 31 → ToInt32 z = z.
Proof. intros H. unfold ToInt32. rewrite Z.mod_small; lia. Qed.

Lemma band_63_range (x : Z) : 0 ≤ band x 63 < 64.
Proof.
  unfold band. rewrite (ToInt32_small 63) by lia.
  change 63 with (Z.ones 6). rewrite Z.land_ones by lia.
  apply Z.mod_pos_bound. lia.
Qed.

Lemma shr_small (x n : Z) :
  0 ≤ x < 2 ^ 31 → 0 ≤ n < 32 → shr x n = x / 2 ^ n.
Proof.
  intros Hx Hn. unfold shr. rewrite ToInt32_small by lia.
  rewrite Z.mod_small by lia. apply Z.shiftr_div_pow2. lia.
Qed.

Lemma shl_small (x n : Z) :
  0 ≤ x → 0 ≤ n < 32 → x * 2 ^ n < 2 ^ 31 → shl x n = x * 2 ^ n.
Proof.
  intros Hx Hn Hb. unfold shl.
  assert (x < 2 ^ 31).
  { assert (1 ≤ 2 ^ n) by (apply Z.pow_le_mono_r with (b := 0); lia). nia. }
  rewrite (ToInt32_small x) by lia.
  rewrite Z.mod_small by lia. rewrite Z.shiftl_mul_pow2 by lia.
  apply ToInt32_small. lia.
Qed.

Lemma byte_val_range (b : byte) : 0 ≤ byte_val b ≤ 255.
Proof. unfold byte_val. pose proof (Byte.to_N_bounded b). lia. Qed.

Lemma Uint8Array_get_range (u : list byte) (i : Z) :
  0 ≤ default 0 (Uint8Array_get u i) ≤ 255.
Proof.
  unfold Uint8Array_get. destruct (i <? 0); simpl; [lia |].
  destruct (u !! Z.to_nat i); simpl; [apply byte_val_range | lia].
Qed.

Lemma int32_of_get (u : list byte) (i : Z) :
  int32_of (Uint8Array_get u i) = default 0 (Uint8Array_get u i).
Proof.
  pose proof (Uint8Array_get_range u i) as H.
  destruct (Uint8Array_get u i); simpl in *; [| reflexivity].
  apply ToInt32_small. lia.
Qed.

(** ** The encoder *)

Lemma lookup_str_in_range (k : Z) :
  0 ≤ k < 64 → ∃ c, lookup_str k = [c] ∧ c ∈ code.
Proof.
  intros Hk. unfold lookup_str, array_get.
  destruct (Z.ltb_spec k 0); [lia |].
  rewrite lookup_is_code, list_lookup_fmap.
  destruct (lookup_lt_is_Some_2 code (Z.to_nat k)) as [c Hc].
  { change (length code) with 64%nat. lia. }
  rewrite Hc. simpl. exists c. split; [reflexivity |].
  eapply list_elem_of_lookup_2, Hc.
Qed.

Lemma encode_triplet_shape (u : list byte) (i : Z) :
  length (encode_triplet u i) = 4%nat ∧ code_chars (encode_triplet u i).
Proof.
  unfold encode_triplet, code_chars.
  set (tmp := bor _ _).
  destruct (lookup_str_in_range _ (band_63_range (shr tmp 18))) as [a [-> Ha]].
  destruct (lookup_str_in_range _ (band_63_range (shr tmp 12))) as [b [-> Hb]].
  destruct (lookup_str_in_range _ (band_63_range (shr tmp 6))) as [c [-> Hc]].
  destruct (lookup_str_in_range _ (band_63_range tmp)) as [d [-> Hd]].
  split; [reflexivity |].
  repeat (apply Forall_cons_2; [assumption |]). apply Forall_nil_2.
Qed.

(** The loop appends one four-character group per triplet. *)
Lemma encode_loop_shape (k : nat) :
  ∀ (u : list byte) (forLen i : Z) (parts : list jsstring),
    forLen = i + 3 * Z.of_nat k →
    ∃ new, encode_loop u forLen i parts = parts ++ new
           ∧ length new = k
           ∧ Forall (λ p, length p = 4%nat ∧ code_chars p) new.
Proof.
  induction k as [|k IH]; intros u forLen i parts E.
  - exists []. rewrite app_nil_r. split; [| split; [reflexivity | constructor]].
    simp encode_loop. destruct (decide (i < forLen)); [lia | reflexivity].
  - destruct (IH u forLen (i + 3) (parts ++ [encode_triplet u i]) ltac:(lia))
      as [new [Hloop [Hlen Hall]]].
    exists (encode_triplet u i :: new).
    split; [| split].
    + simp encode_loop. destruct (decide (i < forLen)); [| lia].
      simpl. rewrite Hloop, <- app_assoc. reflexivity.
    + simpl. rewrite Hlen. reflexivity.
    + apply Forall_cons_2; [apply encode_triplet_shape | exact Hall].
Qed.

Lemma concat_groups (new : list jsstring) :
  Forall (λ p, length p = 4%nat ∧ code_chars p) new →
  length (concat new) = (4 * length new)%nat ∧ code_chars (concat new).
Proof.
  induction 1 as [|p new [Hp Hc] _ [IHl IHc]]; simpl.
  - split; [reflexivity | constructor].
  - split; [rewrite length_app, Hp, IHl; lia | apply Forall_app; split; assumption].
Qed.

(** The encoder's output: characters of the standard alphabet, followed by
    nothing, [=] or [==], of total length [4 * ceil(len / 3)]. *)
Lemma fromUint8Array_shape (B : list byte) :
  ∃ body pad,
    fromUint8Array B = body ++ pad
    ∧ code_chars body
    ∧ (pad = [] ∨ pad = lit "=" ∨ pad = lit "==")
    ∧ strlen (body ++ pad) = 4 * ((Z.of_nat (length B) + 2) / 3).
Proof.
  unfold fromUint8Array.
  set (len := Z.of_nat (length B)).
  assert (Hlen : 0 ≤ len) by (unfold len; lia).
  set (extraBytes := Z.rem len 3).
  assert (Hrem : extraBytes = len mod 3)
    by (unfold extraBytes; apply Z.rem_mod_nonneg; lia).
  destruct (encode_loop_shape (Z.to_nat (len / 3)) B (len - extraBytes) 0 [])
    as [new [-> [Hn Hall]]].
  { rewrite Hrem. rewrite Z2Nat.id by (apply Z.div_pos; lia).
    pose proof (Z.div_mod len 3). lia. }
  destruct (concat_groups new Hall) as [Hcl Hcc].
  rewrite app_nil_l.
  assert (Hk : Z.of_nat (length (concat new)) = 4 * (len / 3)).
  { rewrite Hcl, Hn. rewrite Nat2Z.inj_mul, Z2Nat.id by (apply Z.div_pos; lia).
    reflexivity. }
  destruct (Z.eqb_spec extraBytes 1) as [E1 | NE1];
    [| destruct (Z.eqb_spec extraBytes 2) as [E2 | NE2]].
  - set (tmp := default 0 (Uint8Array_get B (len - 1))).
    assert (Ht : 0 ≤ tmp ≤ 255) by apply Uint8Array_get_range.
    clearbody tmp.
    destruct (lookup_str_in_range (shr tmp 2)) as [a [-> Ha]].
    { rewrite shr_small by lia. change (2 ^ 2) with 4. div_lia. }
    destruct (lookup_str_in_range _ (band_63_range (shl tmp 4))) as [b [-> Hb]].
    exists (concat new ++ [a; b]), (lit "==").
    split; [| split; [| split]].
    + rewrite concat_app. simpl. rewrite <- app_assoc. reflexivity.
    + apply Forall_app; split; [exact Hcc |].
      repeat (apply Forall_cons_2; [assumption |]). apply Forall_nil_2.
    + right; right; reflexivity.
    + unfold strlen. rewrite !length_app, !Nat2Z.inj_add, Hk. simpl length.
      div_lia.
  - set (tmp := shl _ 8 + _).
    assert (Ht : 0 ≤ tmp < 65536).
    { unfold tmp. rewrite int32_of_get.
      pose proof (Uint8Array_get_range B (len - 2)).
      pose proof (Uint8Array_get_range B (len - 1)).
      rewrite shl_small by lia. change (2 ^ 8) with 256. lia. }
    clearbody tmp.
    destruct (lookup_str_in_range (shr tmp 10)) as [a [-> Ha]].
    { rewrite shr_small by lia. change (2 ^ 10) with 1024. div_lia. }
    destruct (lookup_str_in_range _ (band_63_range (shr tmp 4))) as [b [-> Hb]].
    destruct (lookup_str_in_range _ (band_63_range (shl tmp 2))) as [c [-> Hc]].
    exists (concat new ++ [a; b; c]), (lit "=").
    split; [| split; [| split]].
    + rewrite concat_app. simpl. rewrite <- app_assoc. reflexivity.
    + apply Forall_app; split; [exact Hcc |].
      repeat (apply Forall_cons_2; [assumption |]). apply Forall_nil_2.
    + right; left; reflexivity.
    + unfold strlen. rewrite !length_app, !Nat2Z.inj_add, Hk. simpl length.
      div_lia.
  - exists (concat new), [].
    split; [| split; [| split]].
    + rewrite app_nil_r. reflexivity.
    + exact Hcc.
    + left; reflexivity.
    + unfold strlen. rewrite app_nil_r, Hk. div_lia.
Qed.

Lemma code_char_plain (c : N) :
  c ∈ code → c ≠ eq_sign ∧ is_space c = false.
Proof.
  assert (F : forallb (λ c, negb (N.eqb c eq_sign) && negb (is_space c)) code
              = true) by (vm_compute; reflexivity).
  rewrite forallb_forall in F. intros Hc.
  apply list_elem_of_In, F, andb_true_iff in Hc as [H1 H2].
  apply negb_true_iff in H1, H2. apply N.eqb_neq in H1. auto.
Qed.

Lemma code_chars_elem (body : jsstring) :
  code_chars body ↔ ∀ c, c ∈ body → c ∈ code.
Proof.
  unfold code_chars. rewrite Forall_forall. split; intros H c Hc.
  - apply H, list_elem_of_In, Hc.
  - apply H, list_elem_of_In, Hc.
Qed.

Lemma code_chars_no_pad (body : jsstring) : code_chars body → eq_sign ∉ body.
Proof.
  intros H Hin. rewrite code_chars_elem in H.
  destruct (code_char_plain eq_sign); [apply H, Hin | congruence].
Qed.

Lemma pad_cases (pad : jsstring) :
  pad = [] ∨ pad = lit "=" ∨ pad = lit "==" →
  match_pad_0_2 pad = true
  ∧ Forall (λ c, c = eq_sign) pad
  ∧ Forall (λ c, is_space c = false) pad.
Proof.
  intros [-> | [-> | ->]]; (split; [reflexivity |]);
    split; repeat (apply Forall_cons_2; [reflexivity |]); apply Forall_nil_2.
Qed.

Lemma Qceiling_div3 (n : Z) : Qceiling (inject_Z n / 3) = (n + 2) / 3.
Proof.
  unfold Qceiling.
  assert (E : (- (inject_Z n / 3) == inject_Z (- n) / inject_Z 3)%Q)
    by (rewrite inject_Z_opp; field).
  rewrite E, <- Zdiv_Qdiv. div_lia.
Qed.

(** C5: the encoder's output has a length that is a multiple of 4 and equals
    [ceil(len(B) / 3) * 4]. *)
Theorem C5_encoded_length (B : list byte) :
  strlen (fromUint8Array B) mod 4 = 0
  ∧ strlen (fromUint8Array B) = Qceiling (inject_Z (Z.of_nat (length B)) / 3) * 4.
Proof.
  destruct (fromUint8Array_shape B) as [body [pad [-> [_ [_ Hlen]]]]].
  rewrite Qceiling_div3, Hlen. split; [| lia].
  rewrite Z.mul_comm. apply Z.mod_mul. lia.
Qed.

Lemma replace_all_class_app (cls : N → bool) (r a b : jsstring) :
  replace_all_class cls r (a ++ b)
  = replace_all_class cls r a ++ replace_all_class cls r b.
Proof. unfold replace_all_class. rewrite map_app, concat_app. reflexivity. Qed.

Lemma urlsafe_chars (body : jsstring) :
  code_chars body →
  Forall (λ c, c ∈ url_code)
    (replace_all_class (N.eqb (chr "/")) (lit "_")
       (replace_all_class (N.eqb (chr "+")) (lit "-") body)).
Proof.
  assert (F : forallb (λ x, forallb (λ c, bool_decide (c ∈ url_code))
                              (urlsafe_char x)) code = true)
    by (vm_compute; reflexivity).
  rewrite forallb_forall in F.
  induction 1 as [|x body Hx _ IH]; [constructor |].
  change (x :: body) with ([x] ++ body).
  rewrite !replace_all_class_app. apply Forall_app. split; [| exact IH].
  fold (urlsafe_char x).
  apply list_elem_of_In, F in Hx. rewrite forallb_forall in Hx.
  apply Forall_forall. intros c Hc.
  apply Hx, bool_decide_eq_true in Hc. exact Hc.
Qed.

(** C9: the URL-safe rendering of the encoder's output contains no [+],
    no [/] and no [=]. *)
Theorem C9_urlsafe_free_of_plus_slash_pad (B : list byte) :
  (chr "+" ∉ base64urlEncode (fromUint8Array B))
  ∧ (chr "/" ∉ base64urlEncode (fromUint8Array B))
  ∧ (chr "=" ∉ base64urlEncode (fromUint8Array B)).
Proof.
  destruct (fromUint8Array_shape B) as [body [pad [-> [Hbody [Hpad _]]]]].
  unfold base64urlEncode.
  rewrite strip_pad_plus_app
    by (try apply code_chars_no_pad; try apply pad_cases; assumption).
  pose proof (urlsafe_chars body Hbody) as H.
  rewrite Forall_forall in H.
  repeat split; intros Hin; apply list_elem_of_In, H in Hin;
    apply list_elem_of_In in Hin; vm_compute in Hin;
    repeat (destruct Hin as [Hin | Hin]; [discriminate Hin |]); exact Hin.
Qed.

(** C10: the encoder's output is standard-alphabet characters followed by at
    most two [=], and the validator accepts it. *)
Theorem C10_encoder_output_valid (B : list byte) :
  isValidBase64String (Str (fromUint8Array B)) = true
  ∧ ∃ body pad, fromUint8Array B = body ++ pad
      ∧ code_chars body
      ∧ (pad = [] ∨ pad = lit "=" ∨ pad = lit "==").
Proof.
  destruct (fromUint8Array_shape B) as [body [pad [E [Hbody [Hpad _]]]]].
  destruct (pad_cases pad Hpad) as [Hm [_ Hsp]].
  split.
  - rewrite E. apply isValid_iff. left. unfold stripped.
    rewrite remove_runs_id.
    + rewrite strip_pad_0_2_app by (try apply code_chars_no_pad; assumption).
      apply code_chars_elem, Hbody.
    + apply Forall_app. split; [| exact Hsp].
      eapply Forall_impl; [| exact Hbody]. intros c Hc. apply code_char_plain, Hc.
  - exists body, pad. split; [exact E |]. split; [exact Hbody | exact Hpad].
Qed.

(** ** Lengths and padding *)

Lemma repeat_str_pad (n : Z) :
  repeat_str (lit "=") n = replicate (Z.to_nat n) eq_sign.
Proof.
  unfold repeat_str. induction (Z.to_nat n) as [|m IH]; simpl; [reflexivity |].
  rewrite IH. reflexivity.
Qed.

Lemma strlen_app (a b : jsstring) : strlen (a ++ b) = strlen a + strlen b.
Proof. unfold strlen. rewrite length_app. lia. Qed.

Lemma strlen_nonneg (s : jsstring) : 0 ≤ strlen s.
Proof. unfold strlen. lia. Qed.

Lemma getPaddingLength_mod (s : jsstring) :
  getPaddingLength s = (4 - strlen s mod 4) mod 4.
Proof.
  unfold getPaddingLength. pose proof (strlen_nonneg s).
  rewrite (Z.rem_mod_nonneg (strlen s)) by lia.
  apply Z.rem_mod_nonneg; div_lia.
Qed.

Lemma getPaddingLength_range (s : jsstring) :
  0 ≤ getPaddingLength s ≤ 3
  ∧ (strlen s + getPaddingLength s) mod 4 = 0
  ∧ getPaddingLength s ≤ 3 * strlen s.
Proof.
  rewrite getPaddingLength_mod. pose proof (strlen_nonneg s). div_lia.
Qed.

Lemma strlen_padded (s : jsstring) :
  strlen (s ++ repeat_str (lit "=") (getPaddingLength s))
  = strlen s + getPaddingLength s.
Proof.
  rewrite strlen_app, repeat_str_pad. unfold strlen at 2.
  rewrite length_replicate. pose proof (getPaddingLength_range s). lia.
Qed.

(** The byte length is a non-negative number. *)
Lemma getByteLength_nonneg (s : jsstring) : (0 <= getByteLength s)%Q.
Proof.
  unfold getByteLength. cbv zeta. rewrite strlen_padded.
  pose proof (getPaddingLength_range s) as [_ [_ H]].
  unfold Qminus. apply (proj1 (Qle_minus_iff _ _)).
  apply Qle_shift_div_l; [reflexivity |].
  change 4%Q with (inject_Z 4). rewrite <- inject_Z_mult, <- Zle_Qle. lia.
Qed.

(** It is moreover an integer. *)
Lemma getByteLength_integer (s : jsstring) :
  (getByteLength s
   == inject_Z ((strlen s + getPaddingLength s) / 4 * 3 - getPaddingLength s))%Q.
Proof.
  unfold getByteLength. cbv zeta. rewrite strlen_padded.
  pose proof (getPaddingLength_range s) as [_ [Hm _]].
  set (L := strlen s + getPaddingLength s) in *.
  assert (E : L = 4 * (L / 4)) by div_lia.
  rewrite E at 1. unfold Zminus.
  rewrite inject_Z_plus, inject_Z_opp, !inject_Z_mult. field.
Qed.

Lemma Uint8Array_new_ok (q : Q) :
  (0 <= q)%Q → Uint8Array_new q = Ok (replicate (Z.to_nat (Qfloor q)) x00).
Proof.
  intros Hq. unfold Uint8Array_new, truncate.
  destruct (Qlt_le_dec q 0) as [Hlt | _].
  - exfalso. exact (Qlt_not_le _ _ Hlt Hq).
  - pose proof (Qfloor_resp_le _ _ Hq) as H. change (Qfloor 0) with 0 in H.
    destruct (Z.ltb_spec (Qfloor q) 0); [lia | reflexivity].
Qed.

(** ** Errors *)

Lemma getBase64Info_invalid (s : jsstring) :
  isValidBase64String (Str s) = false → getBase64Info s = Throw invalid_base64.
Proof. intros H. unfold getBase64Info. rewrite H. reflexivity. Qed.

Lemma getBase64Info_valid (s : jsstring) :
  isValidBase64String (Str s) = true → ∃ info, getBase64Info s = Ok info.
Proof. intros H. unfold getBase64Info. rewrite H. eexists. reflexivity. Qed.

Lemma Uint8Array_set_length (u : list byte) (i v : Z) :
  length (Uint8Array_set u i v) = length u.
Proof. unfold Uint8Array_set. destruct (i <? 0); [| rewrite length_insert]; reflexivity. Qed.

Lemma decode_quad_length (s : jsstring) (i cb : Z) (u : list byte) :
  length (decode_quad s i cb u) = length u.
Proof. unfold decode_quad. rewrite !Uint8Array_set_length. reflexivity. Qed.

Lemma decode_loop_length (s : jsstring) (len : Q) (i cb : Z) (u : list byte) :
  length (decode_loop s len i cb u).2 = length u.
Proof.
  funelim (decode_loop s len i cb u).
  - rewrite H. apply decode_quad_length.
  - reflexivity.
Qed.

Lemma toUint8Array_valid (s : jsstring) :
  isValidBase64String (Str s) = true →
  ∃ u, toUint8Array s = Ok u ∧ Z.of_nat (length u) = Qfloor (getByteLength s).
Proof.
  intros H. unfold toUint8Array.
  destruct (getBase64Info_valid s H) as [info ->]. cbn [bind].
  rewrite (Uint8Array_new_ok _ (getByteLength_nonneg s)). cbn [bind].
  pose proof (decode_loop_length s (inject_Z (validLength info) / 4) 0 0
                (replicate (Z.to_nat (Qfloor (getByteLength s))) x00)) as Hl.
  destruct (decode_loop _ _ _ _ _) as [[i cb] u]. cbn [snd] in Hl.
  rewrite length_replicate in Hl.
  assert (Hq : 0 ≤ Qfloor (getByteLength s)).
  { change 0 with (Qfloor 0). apply Qfloor_resp_le, getByteLength_nonneg. }
  destruct (paddingLength info =? 2), (paddingLength info =? 1);
    eexists; (split; [reflexivity |]);
    rewrite ?Uint8Array_set_length; lia.
Qed.

(** The length of the decoded buffer, from the input alone. *)
Lemma toUint8Array_length (s : jsstring) (u : list byte) :
  toUint8Array s = Ok u →
  Z.of_nat (length u)
  = (strlen s + getPaddingLength s) / 4 * 3 - getPaddingLength s.
Proof.
  intros E. destruct (isValidBase64String (Str s)) eqn:V.
  - destruct (toUint8Array_valid s V) as [u' [E' Hl]].
    rewrite E in E'. injection E' as <-.
    rewrite Hl, getByteLength_integer. apply Qfloor_Z.
  - unfold toUint8Array in E. rewrite getBase64Info_invalid in E by exact V.
    discriminate E.
Qed.

(** The validator on a string of [=] alone. *)
Lemma padding_only_valid (n : nat) :
  isValidBase64String (Str (replicate n eq_sign)) = true ↔ (n ≤ 2)%nat.
Proof.
  split.
  - intros Hv. destruct (le_lt_dec n 2) as [Hle | Hgt]; [exact Hle | exfalso].
    assert (Hs : Forall (λ c, is_space c = false) (replicate n eq_sign))
      by (apply Forall_replicate; reflexivity).
    unfold isValidBase64String in Hv. rewrite remove_runs_id in Hv by exact Hs.
    destruct n as [|[|[|n]]]; try lia.
    change (replicate (S (S (S n))) eq_sign)
      with (eq_sign :: replicate (S (S n)) eq_sign) in Hv.
    rewrite replace_at_end_cons in Hv.
    change (match_pad_0_2 (eq_sign :: replicate (S (S n)) eq_sign)) with false in Hv.
    cbn [test_class existsb] in Hv.
    change (not_standard_char eq_sign) with true in Hv.
    change (not_urlsafe_char eq_sign) with true in Hv.
    discriminate Hv.
  - intros Hn. destruct n as [|[|[|n]]]; [reflexivity | reflexivity | reflexivity | lia].
Qed.

(** C8, as stated, fails on ["==="]: the string consists only of padding,
    the validator rejects it and both functions throw. *)
Lemma C8_padding_only_counterexample :
  ¬ ((∃ info, getBase64Info (lit "===") = Ok info)
     ∧ (∃ u, toUint8Array (lit "===") = Ok u)).
Proof.
  intros [[info H] _].
  assert (E : getBase64Info (lit "===") = Throw invalid_base64)
    by (vm_compute; reflexivity).
  rewrite E in H. discriminate H.
Qed.

(** C8 (amended): [getBase64Info] and [toUint8Array] throw the invalid-input
    error on every input the validator rejects, and return a result on every
    input it accepts; the empty string is accepted, and a string consisting
    only of padding is accepted exactly when it has at most two [=]. *)
Theorem C8_error_iff_invalid (base64 : jsstring) :
  (isValidBase64String (Str base64) = false →
   getBase64Info base64 = Throw invalid_base64
   ∧ toUint8Array base64 = Throw invalid_base64)
  ∧ (isValidBase64String (Str base64) = true →
     (∃ info, getBase64Info base64 = Ok info)
     ∧ (∃ u, toUint8Array base64 = Ok u))
  ∧ isValidBase64String (Str []) = true
  ∧ (∀ n, isValidBase64String (Str (replicate n eq_sign)) = true ↔ (n ≤ 2)%nat).
Proof.
  split; [| split; [| split; [reflexivity | exact padding_only_valid]]].
  - intros H. split; [apply getBase64Info_invalid, H |].
    unfold toUint8Array. rewrite getBase64Info_invalid by exact H. reflexivity.
  - intros H. split; [apply getBase64Info_valid, H |].
    destruct (toUint8Array_valid base64 H) as [u [E _]]. exists u. exact E.
Qed.

Lemma C8_error_iff_invalid_witness :
  (getBase64Info (lit "===") = Throw invalid_base64
   ∧ toUint8Array (lit "===") = Throw invalid_base64)
  ∧ ((∃ info, getBase64Info (lit "==") = Ok info)
     ∧ (∃ u, toUint8Array (lit "==") = Ok u)).
Proof.
  split.
  - apply (proj1 (C8_error_iff_invalid (lit "==="))). vm_compute. reflexivity.
  - apply (proj1 (proj2 (C8_error_iff_invalid (lit "==")))). vm_compute. reflexivity.
Defined.

(** ** The padding metadata *)

Lemma indexOf_from_app (c : N) (r t : jsstring) (i : Z) :
  c ∉ r → indexOf_from c (r ++ t) i = indexOf_from c t (i + strlen r).
Proof.
  revert i. induction r as [|x r IH]; intros i Hc; simpl.
  - f_equal. unfold strlen. simpl. lia.
  - apply not_elem_of_cons in Hc as [Hx Hr].
    destruct (N.eqb_spec x c); [congruence |].
    rewrite IH by exact Hr. f_equal. unfold strlen. simpl length. lia.
Qed.

Lemma indexOf_pad (r : jsstring) (m : nat) :
  eq_sign ∉ r →
  indexOf (r ++ replicate m eq_sign) eq_sign
  = if decide (m = 0%nat) then -1 else strlen r.
Proof.
  intros Hr. unfold indexOf. rewrite indexOf_from_app by exact Hr.
  destruct m as [|m]; [reflexivity |].
  cbn [replicate indexOf_from]. rewrite N.eqb_refl.
  destruct (decide (S m = 0%nat)); lia.
Qed.

(** The working copy of [getBase64Info]: the input with the missing padding
    appended. *)
Lemma padded_copy (s : jsstring) :
  (if Z.rem (strlen s) 4 >? 0
   then s ++ repeat_str (lit "=") (getPaddingLength s) else s)
  = s ++ replicate (Z.to_nat (getPaddingLength s)) eq_sign.
Proof.
  rewrite repeat_str_pad.
  destruct (Z.gtb_spec (Z.rem (strlen s) 4) 0) as [Hgt | Hle]; [reflexivity |].
  assert (E : getPaddingLength s = 0).
  { rewrite getPaddingLength_mod. pose proof (strlen_nonneg s).
    rewrite Z.rem_mod_nonneg in Hle by lia. div_lia. }
  rewrite E. simpl. rewrite app_nil_r. reflexivity.
Qed.

Lemma alphabets_no_pad : (eq_sign ∉ code) ∧ (eq_sign ∉ url_code).
Proof.
  split; intros H; apply list_elem_of_In in H; vm_compute in H;
    repeat (destruct H as [H | H]; [discriminate H |]); exact H.
Qed.

(** An accepted input without whitespace is a run of non-[=] characters
    followed by at most two [=]. *)
Lemma valid_split (s : jsstring) :
  isValidBase64String (Str s) = true →
  Forall (λ c, is_space c = false) s →
  ∃ r k, s = r ++ replicate k eq_sign ∧ (k ≤ 2)%nat ∧ eq_sign ∉ r.
Proof.
  intros Hv Hs.
  assert (Hst : stripped s = replace_at_end match_pad_0_2 s)
    by (unfold stripped; rewrite remove_runs_id by exact Hs; reflexivity).
  destruct (replace_at_end_split match_pad_0_2 s eq_refl) as [pad [E Hp]].
  rewrite <- Hst in E.
  exists (stripped s), (length pad).
  apply match_pad_0_2_spec in Hp.
  split; [| split].
  - rewrite E at 1. f_equal. destruct Hp as [-> | [-> | ->]]; reflexivity.
  - destruct Hp as [-> | [-> | ->]]; simpl; lia.
  - apply isValid_iff in Hv. destruct alphabets_no_pad as [H1 H2].
    intros Hin. destruct Hv as [Hv | Hv]; apply Hv in Hin; contradiction.
Qed.

(** The padding length of the metadata: the [=] of the input plus the ones
    appended, unless the padded copy starts with [=]. *)
Lemma getBase64Info_paddingLength (r : jsstring) (k : nat) :
  isValidBase64String (Str (r ++ replicate k eq_sign)) = true →
  eq_sign ∉ r →
  ∃ info, getBase64Info (r ++ replicate k eq_sign) = Ok info
    ∧ paddingLength info
      = if decide (r = []) then 0
        else Z.of_nat k + getPaddingLength (r ++ replicate k eq_sign).
Proof.
  intros Hv Hr.
  pose proof (getPaddingLength_range (r ++ replicate k eq_sign)) as [Hp _].
  pose proof (padded_copy (r ++ replicate k eq_sign)) as EP.
  rewrite <- (app_assoc r (replicate k eq_sign) (replicate _ eq_sign)),
    <- replicate_add in EP.
  unfold getBase64Info. rewrite Hv. cbn [negb]. cbv zeta.
  eexists. split; [reflexivity |]. cbn [paddingLength].
  rewrite !EP.
  set (m := (k + Z.to_nat (getPaddingLength (r ++ replicate k eq_sign)))%nat).
  rewrite indexOf_pad by exact Hr.
  destruct (decide (m = 0%nat)) as [Hm | Hm].
  - change (-1 >? 0) with false. cbv iota. unfold m in Hm.
    destruct (decide (r = [])); [reflexivity |]. unfold strlen. simpl length. lia.
  - destruct r as [|x r]; [reflexivity |].
    destruct (decide (x :: r = [])); [discriminate |].
    assert (Hpos : (strlen (x :: r) >? 0) = true)
      by (apply Z.gtb_lt; unfold strlen; simpl length; lia).
    rewrite Hpos. unfold slice_from, slice_pos.
    pose proof (strlen_nonneg (x :: r)) as Hn.
    destruct (Z.ltb_spec (strlen (x :: r)) 0); [lia |].
    rewrite strlen_app, Z.min_l by (pose proof (strlen_nonneg (replicate m eq_sign)); lia).
    unfold strlen at 2. rewrite Nat2Z.id, drop_app_length.
    unfold strlen. rewrite length_replicate. lia.
Qed.

(** C6, as stated, fails on ["A"]: the validator accepts it and the padding
    length of its metadata is 3. *)
Lemma C6_padding_counterexample :
  ¬ (isValidBase64String (Str (lit "A")) = true →
     ∀ info, getBase64Info (lit "A") = Ok info →
       paddingLength info = 0 ∨ paddingLength info = 1 ∨ paddingLength info = 2).
Proof.
  intros H.
  assert (E : ∃ info, getBase64Info (lit "A") = Ok info ∧ paddingLength info = 3)
    by (eexists; split; [vm_compute; reflexivity | reflexivity]).
  destruct E as [info [E P]].
  specialize (H ltac:(vm_compute; reflexivity) info E). lia.
Qed.

Lemma indexOf_from_range (c : N) (s : jsstring) (i : Z) :
  indexOf_from c s i = -1 ∨ i ≤ indexOf_from c s i < i + strlen s.
Proof.
  revert i. induction s as [|x s IH]; intros i; simpl; [left; reflexivity |].
  unfold strlen. simpl length.
  destruct (N.eqb x c); [right; lia |].
  destruct (IH (i + 1)) as [H | H]; [left; exact H | right].
  unfold strlen in H. lia.
Qed.

Lemma indexOf_from_found (c : N) (s t : jsstring) (i : Z) :
  c ∈ s →
  indexOf_from c (s ++ t) i = indexOf_from c s i
  ∧ i ≤ indexOf_from c s i < i + strlen s.
Proof.
  revert i. induction s as [|x s IH]; intros i Hc; [inversion Hc |].
  cbn [app indexOf_from]. unfold strlen. cbn [length].
  destruct (N.eqb_spec x c) as [_ | Hne]; [split; [reflexivity | lia] |].
  apply elem_of_cons in Hc as [-> | Hc]; [congruence |].
  destruct (IH (i + 1) Hc) as [E H]. unfold strlen in H. split; [exact E | lia].
Qed.

Lemma indexOf_none (c : N) (s : jsstring) : c ∉ s → indexOf s c = -1.
Proof.
  intros H. unfold indexOf. rewrite <- (app_nil_r s).
  rewrite indexOf_from_app by exact H. reflexivity.
Qed.

Lemma strlen_drop (s : jsstring) (n : Z) :
  0 ≤ n ≤ strlen s → strlen (slice_from s n) = strlen s - n.
Proof.
  intros H. unfold slice_from, slice_pos.
  destruct (Z.ltb_spec n 0); [lia |]. rewrite Z.min_l by lia.
  unfold strlen in *. rewrite length_drop. lia.
Qed.

(** The padding length of the metadata, from the input: nothing when the
    input starts with [=], otherwise the characters from its first [=] on
    plus the padding its length misses. *)
Lemma paddingLength_value (s : jsstring) (info : Base64Info) :
  getBase64Info s = Ok info →
  paddingLength info
  = if indexOf s eq_sign =? 0 then 0
    else chars_from_first_pad s + getPaddingLength s.
Proof.
  unfold getBase64Info.
  destruct (isValidBase64String (Str s)); [| discriminate]. cbn [negb]. cbv zeta.
  rewrite !padded_copy. intros E. injection E as <-. cbn [paddingLength].
  pose proof (getPaddingLength_range s) as [Hp _].
  pose proof (strlen_nonneg s) as Hn.
  set (p := getPaddingLength s) in *.
  assert (HP : strlen (s ++ replicate (Z.to_nat p) eq_sign) = strlen s + p).
  { rewrite strlen_app. unfold strlen at 2. rewrite length_replicate. lia. }
  unfold chars_from_first_pad.
  destruct (decide (eq_sign ∈ s)) as [Hin | Hout].
  - destruct (indexOf_from_found eq_sign s (replicate (Z.to_nat p) eq_sign) 0 Hin)
      as [E Hr].
    fold (indexOf (s ++ replicate (Z.to_nat p) eq_sign) eq_sign) in E.
    fold (indexOf s eq_sign) in E, Hr. rewrite E.
    destruct (Z.ltb_spec (indexOf s eq_sign) 0); [lia |].
    destruct (Z.eqb_spec (indexOf s eq_sign) 0) as [E0 | N0].
    + rewrite E0. reflexivity.
    + destruct (Z.gtb_spec (indexOf s eq_sign) 0); [| lia].
      rewrite strlen_drop by lia. lia.
  - rewrite (indexOf_none eq_sign s Hout). change (-1 =? 0) with false.
    change (-1 <? 0) with true. cbv iota.
    rewrite indexOf_pad by exact Hout.
    destruct (decide (Z.to_nat p = 0%nat)) as [Hm | Hm].
    + change (-1 >? 0) with false. cbv iota. change (strlen []) with 0. lia.
    + destruct (Z.gtb_spec (strlen s) 0) as [Hs | Hs].
      * rewrite strlen_drop by lia. lia.
      * exfalso. assert (strlen s = 0) by lia.
        unfold p in Hm. rewrite getPaddingLength_mod in Hm.
        replace (strlen s) with 0 in Hm by lia. apply Hm. reflexivity.
Qed.

(** C6 (amended): on every input accepted by the validator, the padding
    length of the metadata is 0 when the input starts with [=], and otherwise
    is the number of characters of the input from its first [=] to its end
    plus the padding [(4 - len % 4) % 4] that its length misses; so it is 0,
    1 or 2 exactly when the input starts with [=] or that sum is at most 2. *)
Theorem C6_padding_length_0_1_2 (s : jsstring) :
  isValidBase64String (Str s) = true →
  ∃ info, getBase64Info s = Ok info
    ∧ paddingLength info
      = (if indexOf s eq_sign =? 0 then 0
         else chars_from_first_pad s + getPaddingLength s)
    ∧ (paddingLength info = 0 ∨ paddingLength info = 1 ∨ paddingLength info = 2
       ↔ indexOf s eq_sign = 0
         ∨ chars_from_first_pad s + getPaddingLength s ≤ 2).
Proof.
  intros Hv. destruct (getBase64Info_valid s Hv) as [info E].
  exists info. split; [exact E |].
  pose proof (paddingLength_value s info E) as H.
  split; [exact H |]. rewrite H.
  pose proof (getPaddingLength_range s) as [Hp _].
  assert (Hc : 0 ≤ chars_from_first_pad s).
  { unfold chars_from_first_pad.
    destruct (Z.ltb_spec (indexOf s eq_sign) 0); [lia |].
    destruct (indexOf_from_range eq_sign s 0) as [Hr | Hr];
      fold (indexOf s eq_sign) in Hr; lia. }
  destruct (Z.eqb_spec (indexOf s eq_sign) 0); lia.
Qed.

Lemma C6_padding_length_0_1_2_witness :
  ∃ info, getBase64Info (lit "TQ=") = Ok info
    ∧ paddingLength info = 1 + 1
    ∧ (paddingLength info = 0 ∨ paddingLength info = 1 ∨ paddingLength info = 2
       ↔ indexOf (lit "TQ=") eq_sign = 0 ∨ 1 + 1 ≤ 2).
Proof.
  apply (C6_padding_length_0_1_2 (lit "TQ=")). vm_compute. reflexivity.
Defined.

(** * Further properties of the module *)

(** ** The tables, read in the other direction *)

Lemma reverse_of_forward_aux (k : Z) :
  0 ≤ k < 64 →
  ∃ c, array_get lookup k = Some [c] ∧ revLookup !! [c] = Some k.
Proof.
  intros Hk.
  assert (F : forallb
    (λ n, match array_get lookup (Z.of_N n) with
          | Some [c] => bool_decide (revLookup !! [c] = Some (Z.of_N n))
          | _ => false
          end) (map N.of_nat (seq 0 64)) = true) by (vm_compute; reflexivity).
  pose proof (below_forall _ 64 F (Z.to_N k) ltac:(lia)) as H.
  cbv beta in H. rewrite Z2N.id in H by lia.
  destruct (array_get lookup k) as [[|c [|d t]]|]; try discriminate H.
  exists c. split; [reflexivity |]. apply bool_decide_eq_true in H. exact H.
Qed.

(** Every forward entry is a one-character string whose reverse entry is its
    own index: [revLookup[lookup[k]] == k] for k in 0..63. *)
Theorem reverse_of_forward (k : Z) :
  0 ≤ k < 64 →
  ∃ c, array_get lookup k = Some [c] ∧ revLookup !! [c] = Some k.
Proof. exact (reverse_of_forward_aux k). Qed.

Lemma reverse_of_forward_witness :
  ∃ c, array_get lookup 62 = Some [c] ∧ revLookup !! [c] = Some 62.
Proof. apply (reverse_of_forward 62). lia. Defined.

Lemma revLookup_six_bits_aux (c : jsstring) (k : Z) :
  revLookup !! c = Some k → 0 ≤ k < 64.
Proof.
  revert c k. change (map_Forall (λ _ k, 0 ≤ k < 64) revLookup).
  apply map_Forall_to_list. vm_compute map_to_list.
  repeat (apply Forall_cons_2; [simpl; lia |]). apply Forall_nil_2.
Qed.

(** Every value of the reverse table is a 6-bit number. *)
Theorem revLookup_six_bits (c : jsstring) (k : Z) :
  revLookup !! c = Some k → 0 ≤ k < 64.
Proof. exact (revLookup_six_bits_aux c k). Qed.

Lemma revLookup_six_bits_witness : 0 ≤ 63 < 64.
Proof.
  apply (revLookup_six_bits (lit "_") 63). vm_compute. reflexivity.
Defined.

(** ** [getPaddingLength] *)

Lemma getPaddingLength_rounds_up_aux (s : jsstring) :
  0 ≤ getPaddingLength s ≤ 3
  ∧ (strlen s + getPaddingLength s) mod 4 = 0
  ∧ (getPaddingLength s = 0 ↔ strlen s mod 4 = 0).
Proof.
  rewrite getPaddingLength_mod. pose proof (strlen_nonneg s). div_lia.
Qed.

(** The padding length is at most 3, rounds the length up to a multiple of
    4, and is 0 exactly when the length already is one. *)
Theorem getPaddingLength_rounds_up (s : jsstring) :
  0 ≤ getPaddingLength s ≤ 3
  ∧ (strlen s + getPaddingLength s) mod 4 = 0
  ∧ (getPaddingLength s = 0 ↔ strlen s mod 4 = 0).
Proof. exact (getPaddingLength_rounds_up_aux s). Qed.

Lemma getPaddingLength_rounds_up_witness : getPaddingLength (lit "TWFu") = 0.
Proof. apply (getPaddingLength_rounds_up (lit "TWFu")). reflexivity. Defined.

(** ** The URL-safe renderings *)

Lemma replace_all_class_map (cls : N → bool) (r : N) (s : jsstring) :
  replace_all_class cls [r] s = map (λ c, if cls c then r else c) s.
Proof.
  unfold replace_all_class. induction s as [|x s IH]; simpl; [reflexivity |].
  rewrite IH. destruct (cls x); reflexivity.
Qed.

Lemma elem_map_subst (a b : N) (s : jsstring) (c : N) :
  c ∈ map (λ x, if N.eqb a x then b else x) s → c = b ∨ (c ∈ s ∧ c ≠ a).
Proof.
  intros Hin. apply list_elem_of_In, in_map_iff in Hin as [x [Hx Hin]].
  destruct (N.eqb_spec a x) as [-> | Hne]; [left; congruence |].
  right. subst c. split; [apply list_elem_of_In, Hin | congruence].
Qed.

Lemma subst_char_pad (a b y : N) :
  (if N.eqb a y then b else y) = eq_sign → b ≠ eq_sign → y = eq_sign.
Proof. destruct (N.eqb a y); congruence. Qed.

Lemma base64urlEncode_map (s : jsstring) :
  base64urlEncode s
  = map (λ c, if N.eqb (chr "/") c then chr "_" else c)
      (map (λ c, if N.eqb (chr "+") c then chr "-" else c)
         (replace_at_end match_pad_plus s)).
Proof.
  unfold base64urlEncode.
  change (lit "_") with [chr "_"]. change (lit "-") with [chr "-"].
  rewrite !replace_all_class_map. reflexivity.
Qed.

Lemma base64urlDecode_map (s : jsstring) :
  base64urlDecode s
  = map (λ c, if N.eqb (chr "_") c then chr "/" else c)
      (map (λ c, if N.eqb (chr "-") c then chr "+" else c)
         (s ++ replicate (Z.to_nat (getPaddingLength s)) eq_sign)).
Proof.
  unfold base64urlDecode. cbv zeta.
  change (lit "/") with [chr "/"]. change (lit "+") with [chr "+"].
  rewrite !replace_all_class_map, repeat_str_pad. reflexivity.
Qed.

Lemma base64urlDecode_shape (s : jsstring) :
  strlen (base64urlDecode s) = strlen s + getPaddingLength s
  ∧ strlen (base64urlDecode s) mod 4 = 0
  ∧ (chr "-" ∉ base64urlDecode s)
  ∧ (chr "_" ∉ base64urlDecode s).
Proof.
  pose proof (getPaddingLength_range s) as [Hp [Hm _]].
  assert (L : strlen (base64urlDecode s) = strlen s + getPaddingLength s).
  { rewrite base64urlDecode_map. unfold strlen.
    rewrite !length_map, length_app, length_replicate. lia. }
  split; [exact L |]. split; [rewrite L; exact Hm |].
  rewrite base64urlDecode_map.
  split; intros Hin.
  - apply elem_map_subst in Hin as [Hin | [Hin _]]; [discriminate Hin |].
    apply elem_map_subst in Hin as [Hin | [_ Hin]]; [discriminate Hin | congruence].
  - apply elem_map_subst in Hin as [Hin | [_ Hin]]; [discriminate Hin | congruence].
Qed.

(** [base64urlDecode] returns, for every string, a string whose length is
    the next multiple of 4 and which holds no [-] and no [_]. *)
Theorem base64urlDecode_standard_form (s : jsstring) :
  strlen (base64urlDecode s) = strlen s + getPaddingLength s
  ∧ strlen (base64urlDecode s) mod 4 = 0
  ∧ (chr "-" ∉ base64urlDecode s)
  ∧ (chr "_" ∉ base64urlDecode s).
Proof. exact (base64urlDecode_shape s). Qed.

Lemma replace_at_end_nil (p : jsstring → bool) (s : jsstring) :
  replace_at_end p s = [] → p s = true ∨ s = [].
Proof.
  destruct s as [|c t]; [right; reflexivity |].
  rewrite replace_at_end_cons. destruct (p (c :: t)); [left; reflexivity | discriminate].
Qed.

Lemma match_pad_plus_cons (c : N) (t : jsstring) :
  match_pad_plus (c :: t)
  = N.eqb c eq_sign && forallb (λ c, N.eqb c eq_sign) t.
Proof. reflexivity. Qed.

(** Stripping [=+$] leaves a string that does not end with [=]. *)
Lemma strip_pad_plus_last (s : jsstring) :
  list.last (replace_at_end match_pad_plus s) ≠ Some eq_sign.
Proof.
  induction s as [|c t IH]; [discriminate |].
  rewrite replace_at_end_cons.
  destruct (match_pad_plus (c :: t)) eqn:E; [discriminate |].
  rewrite last_cons.
  destruct (list.last (replace_at_end match_pad_plus t)) as [y|] eqn:L; [exact IH |].
  intros Hc. injection Hc as ->.
  apply last_None, replace_at_end_nil in L.
  destruct L as [L | ->]; [| discriminate E].
  rewrite match_pad_plus_cons, N.eqb_refl in E.
  destruct t as [|d t]; [discriminate L |].
  rewrite match_pad_plus_cons in L. simpl in E. congruence.
Qed.

(** A string that does not end with [=] is left alone. *)
Lemma strip_pad_plus_id (s : jsstring) :
  list.last s ≠ Some eq_sign → replace_at_end match_pad_plus s = s.
Proof.
  induction s as [|c t IH]; intros Hl; [reflexivity |].
  rewrite replace_at_end_cons.
  assert (E : match_pad_plus (c :: t) = false).
  { destruct (match_pad_plus (c :: t)) eqn:E; [| reflexivity].
    exfalso. apply Hl.
    change (forallb (λ c, N.eqb c eq_sign) (c :: t) = true) in E.
    rewrite forallb_forall in E.
    destruct (list.last (c :: t)) as [y|] eqn:Ly;
      [| rewrite last_cons in Ly; destruct (list.last t); discriminate Ly].
    f_equal. apply N.eqb_eq, E, list_elem_of_In, last_Some_elem_of, Ly. }
  rewrite E. f_equal. apply IH.
  rewrite last_cons in Hl. destruct (list.last t); [exact Hl | discriminate].
Qed.

Lemma base64urlEncode_shape (s : jsstring) :
  (chr "+" ∉ base64urlEncode s)
  ∧ (chr "/" ∉ base64urlEncode s)
  ∧ list.last (base64urlEncode s) ≠ Some eq_sign.
Proof.
  rewrite base64urlEncode_map. split; [| split].
  - intros Hin.
    apply elem_map_subst in Hin as [Hin | [Hin _]]; [discriminate Hin |].
    apply elem_map_subst in Hin as [Hin | [_ Hin]]; [discriminate Hin | congruence].
  - intros Hin.
    apply elem_map_subst in Hin as [Hin | [_ Hin]]; [discriminate Hin | congruence].
  - rewrite !fmap_last. pose proof (strip_pad_plus_last s) as H.
    destruct (list.last (replace_at_end match_pad_plus s)) as [y|]; [| discriminate].
    cbn [fmap option_fmap option_map]. intros E. apply (inj Some) in E.
    apply H. f_equal.
    apply subst_char_pad in E; [| discriminate].
    apply subst_char_pad in E; [exact E | discriminate].
Qed.

(** [base64urlEncode] returns, for every string, a string with no [+] and no
    [/] that does not end with [=]. *)
Theorem base64urlEncode_urlsafe_form (s : jsstring) :
  (chr "+" ∉ base64urlEncode s)
  ∧ (chr "/" ∉ base64urlEncode s)
  ∧ list.last (base64urlEncode s) ≠ Some eq_sign.
Proof. exact (base64urlEncode_shape s). Qed.

Lemma map_id_on (f : N → N) (s : jsstring) :
  (∀ c, c ∈ s → f c = c) → map f s = s.
Proof.
  induction s as [|x s IH]; intros H; simpl; [reflexivity |].
  rewrite H by left. f_equal. apply IH. intros c Hc. apply H. right. exact Hc.
Qed.

(** [base64urlEncode] is idempotent. *)
Theorem base64urlEncode_idempotent (s : jsstring) :
  base64urlEncode (base64urlEncode s) = base64urlEncode s.
Proof.
  destruct (base64urlEncode_shape s) as [Hp [Hs Hl]].
  rewrite (base64urlEncode_map (base64urlEncode s)).
  rewrite strip_pad_plus_id by exact Hl.
  rewrite (map_id_on _ (base64urlEncode s)).
  - apply map_id_on. intros c Hc.
    destruct (N.eqb_spec (chr "/") c) as [<- | _]; [contradiction | reflexivity].
  - intros c Hc.
    destruct (N.eqb_spec (chr "+") c) as [<- | _]; [contradiction | reflexivity].
Qed.

Lemma urlsafe_char_round_trip (x : N) :
  x ∈ code →
  let y := if N.eqb (chr "+") x then chr "-" else x in
  let z := if N.eqb (chr "/") y then chr "_" else y in
  let v := if N.eqb (chr "-") z then chr "+" else z in
  (if N.eqb (chr "_") v then chr "/" else v) = x.
Proof.
  assert (F : forallb
    (λ x, let y := if N.eqb (chr "+") x then chr "-" else x in
          let z := if N.eqb (chr "/") y then chr "_" else y in
          let v := if N.eqb (chr "-") z then chr "+" else z in
          N.eqb (if N.eqb (chr "_") v then chr "/" else v) x)
    code = true) by (vm_compute; reflexivity).
  rewrite forallb_forall in F. intros Hx.
  apply N.eqb_eq, (F x), list_elem_of_In, Hx.
Qed.

(** The two renderings are inverse on the encoder's output:
    [base64urlDecode(base64urlEncode(fromUint8Array(B)))] is
    [fromUint8Array(B)]. *)
Theorem urlsafe_round_trip (B : list byte) :
  base64urlDecode (base64urlEncode (fromUint8Array B)) = fromUint8Array B.
Proof.
  destruct (fromUint8Array_shape B) as [body [pad [-> [Hbody [Hpad Hlen]]]]].
  destruct (pad_cases pad Hpad) as [_ [Hall _]].
  rewrite base64urlEncode_map.
  rewrite strip_pad_plus_app by (try apply code_chars_no_pad; assumption).
  rewrite base64urlDecode_map.
  set (u := map _ (map _ body)).
  assert (Hu : strlen u = strlen body)
    by (unfold u, strlen; rewrite !length_map; reflexivity).
  assert (Hp : Z.to_nat (getPaddingLength u) = length pad).
  { rewrite getPaddingLength_mod, Hu. rewrite strlen_app in Hlen.
    assert (0 ≤ strlen pad ≤ 2)
      by (destruct Hpad as [-> | [-> | ->]]; unfold strlen; simpl; lia).
    pose proof (strlen_nonneg body).
    assert (E : (4 - strlen body mod 4) mod 4 = strlen pad) by div_lia.
    rewrite E. unfold strlen. apply Nat2Z.id. }
  rewrite Hp, !map_app. f_equal.
  - unfold u. rewrite !map_map.
    apply map_id_on. intros c Hc. apply code_chars_elem in Hc; [| exact Hbody].
    apply (urlsafe_char_round_trip c Hc).
  - destruct Hpad as [-> | [-> | ->]]; reflexivity.
Qed.

(** ** The validator on foreign characters, whitespace and padding *)

(** A character that is not whitespace, not [=] and in neither alphabet makes
    the validator reject the string, wherever it occurs. *)
Theorem validator_rejects_foreign (s : jsstring) (c : N) :
  c ∈ s → is_space c = false → c ≠ eq_sign → c ∉ code → c ∉ url_code →
  isValidBase64String (Str s) = false.
Proof.
  intros Hc Hs Hne Hcode Hurl.
  destruct (isValidBase64String (Str s)) eqn:V; [| reflexivity].
  exfalso. pose proof (stripped_keeps s c Hc Hs Hne) as Hin.
  apply isValid_iff in V as [V | V]; apply V in Hin; contradiction.
Qed.

Lemma validator_rejects_foreign_witness :
  isValidBase64String (Str (lit "TQ!=")) = false.
Proof.
  apply (validator_rejects_foreign (lit "TQ!=") (chr "!")).
  - solve_elem.
  - reflexivity.
  - discriminate.
  - intros H. apply list_elem_of_In in H. vm_compute in H.
    repeat (destruct H as [H | H]; [discriminate H |]). exact H.
  - intros H. apply list_elem_of_In in H. vm_compute in H.
    repeat (destruct H as [H | H]; [discriminate H |]). exact H.
Defined.

Lemma remove_runs_app (cls : N → bool) (a b : jsstring) :
  remove_runs cls (a ++ b) = remove_runs cls a ++ remove_runs cls b.
Proof. unfold remove_runs. apply filter_app. Qed.

Lemma remove_runs_all (cls : N → bool) (w : jsstring) :
  Forall (λ c, cls c = true) w → remove_runs cls w = [].
Proof.
  unfold remove_runs. induction 1 as [|c w Hc _ IH]; simpl; [reflexivity |].
  rewrite Hc. simpl. exact IH.
Qed.

(** Whitespace is ignored by the validator, wherever it stands. *)
Theorem validator_ignores_whitespace (a w b : jsstring) :
  Forall (λ c, is_space c = true) w →
  isValidBase64String (Str (a ++ w ++ b)) = isValidBase64String (Str (a ++ b)).
Proof.
  intros Hw. unfold isValidBase64String.
  rewrite !remove_runs_app, (remove_runs_all _ w Hw). reflexivity.
Qed.

Lemma validator_ignores_whitespace_witness :
  isValidBase64String (Str (lit "TWFu" ++ [10; 32]%N ++ lit "TQ=="))
  = isValidBase64String (Str (lit "TWFu" ++ lit "TQ==")).
Proof.
  apply (validator_ignores_whitespace (lit "TWFu") [10; 32]%N (lit "TQ==")).
  repeat constructor.
Defined.

Lemma rejects_inner_pad_aux (a b : jsstring) :
  (2 ≤ length (remove_runs is_space b))%nat →
  isValidBase64String (Str (a ++ [eq_sign] ++ b)) = false.
Proof.
  intros Hlen.
  destruct (isValidBase64String (Str (a ++ [eq_sign] ++ b))) eqn:V; [| reflexivity].
  exfalso. apply isValid_iff in V.
  assert (Hin : eq_sign ∈ stripped (a ++ [eq_sign] ++ b)).
  { unfold stripped. rewrite !remove_runs_app.
    change (remove_runs is_space [eq_sign]) with [eq_sign].
    set (fa := remove_runs is_space a). set (fb := remove_runs is_space b) in *.
    destruct (replace_at_end_split match_pad_0_2 (fa ++ [eq_sign] ++ fb) eq_refl)
      as [pad [E Hp]].
    set (r := replace_at_end match_pad_0_2 (fa ++ [eq_sign] ++ fb)) in *.
    assert (Hpl : (length pad ≤ 2)%nat)
      by (apply match_pad_0_2_spec in Hp as [-> | [-> | ->]]; simpl; lia).
    assert (Hr : (length fa < length r)%nat).
    { apply (f_equal length) in E. rewrite !length_app in E. simpl in E. lia. }
    apply (list_elem_of_lookup_2 r (length fa)).
    rewrite <- (lookup_app_l r pad) by exact Hr. rewrite <- E.
    rewrite lookup_app_r by lia. rewrite Nat.sub_diag. reflexivity. }
  destruct alphabets_no_pad as [H1 H2].
  destruct V as [V | V]; apply V in Hin; contradiction.
Qed.

(** An [=] followed, anywhere later in the string, by two or more characters
    that are not whitespace makes the validator reject the string: padding is
    accepted only in the last two places. *)
Theorem validator_rejects_inner_pad (a b1 b2 b3 : jsstring) (x y : N) :
  is_space x = false → is_space y = false →
  isValidBase64String
    (Str (a ++ [eq_sign] ++ b1 ++ [x] ++ b2 ++ [y] ++ b3)) = false.
Proof.
  intros Hx Hy. apply rejects_inner_pad_aux.
  rewrite !remove_runs_app, !length_app.
  assert (Ex : remove_runs is_space [x] = [x])
    by (unfold remove_runs; cbn [List.filter]; rewrite Hx; reflexivity).
  assert (Ey : remove_runs is_space [y] = [y])
    by (unfold remove_runs; cbn [List.filter]; rewrite Hy; reflexivity).
  rewrite Ex, Ey. cbn [length]. lia.
Qed.

Lemma validator_rejects_inner_pad_witness :
  isValidBase64String (Str (lit "T=Q Q")) = false.
Proof.
  apply (validator_rejects_inner_pad (lit "T") [] (lit " ") [] (chr "Q") (chr "Q"));
    reflexivity.
Defined.

(** ** The fields of [getBase64Info] *)

Lemma slice_prefix (s : jsstring) (n : Z) :
  0 ≤ n ≤ strlen s → slice s 0 n = take (Z.to_nat n) s.
Proof.
  intros Hn. unfold slice, slice_pos. simpl (0 <? 0).
  destruct (Z.ltb_spec n 0); [lia |].
  rewrite Z.min_l, Z.min_l by lia. simpl. rewrite Nat.sub_0_r. reflexivity.
Qed.

Lemma slice_from_suffix (s : jsstring) (n : Z) :
  0 ≤ n ≤ strlen s → slice_from s n = drop (Z.to_nat n) s.
Proof.
  intros Hn. unfold slice_from, slice_pos.
  destruct (Z.ltb_spec n 0); [lia |]. rewrite Z.min_l by lia. reflexivity.
Qed.

(** The valid string followed by the padding string is the input with its
    missing padding appended; the two lengths are the lengths of the two
    strings and add up to a multiple of 4. *)
Theorem getBase64Info_partition (s : jsstring) (info : Base64Info) :
  getBase64Info s = Ok info →
  validString info ++ paddingString info
  = s ++ replicate (Z.to_nat (getPaddingLength s)) eq_sign
  ∧ validLength info = strlen (validString info)
  ∧ paddingLength info = strlen (paddingString info)
  ∧ validLength info + paddingLength info = strlen s + getPaddingLength s
  ∧ (validLength info + paddingLength info) mod 4 = 0.
Proof.
  unfold getBase64Info.
  destruct (isValidBase64String (Str s)); [| discriminate]. cbn [negb]. cbv zeta.
  rewrite !padded_copy. set (P := s ++ replicate _ eq_sign).
  assert (HP : strlen P = strlen s + getPaddingLength s).
  { unfold P. rewrite strlen_app. unfold strlen at 2.
    rewrite length_replicate. pose proof (getPaddingLength_range s). lia. }
  intros E. injection E as <-. cbn [validString paddingString validLength paddingLength].
  pose proof (strlen_nonneg P) as HPn.
  pose proof (getPaddingLength_range s) as [_ [Hm _]].
  destruct (Z.gtb_spec (indexOf P eq_sign) 0) as [Hgt | Hle].
  - destruct (indexOf_from_range eq_sign P 0) as [Hr | Hr];
      fold (indexOf P eq_sign) in Hr; [lia |].
    rewrite slice_prefix, slice_from_suffix by lia.
    rewrite take_drop.
    assert (Ht : strlen (take (Z.to_nat (indexOf P eq_sign)) P) = indexOf P eq_sign).
    { unfold strlen in *. rewrite length_take. lia. }
    assert (Hd : strlen (drop (Z.to_nat (indexOf P eq_sign)) P)
                 = strlen P - indexOf P eq_sign).
    { unfold strlen in *. rewrite length_drop. lia. }
    rewrite Ht, Hd.
    repeat split; try reflexivity; try lia.
    replace (indexOf P eq_sign + (strlen P - indexOf P eq_sign)) with (strlen P) by lia.
    rewrite HP. exact Hm.
  - assert (Ev : slice P 0 (strlen P) = P).
    { rewrite slice_prefix by lia. unfold strlen. rewrite Nat2Z.id.
      apply firstn_all. }
    rewrite Ev, app_nil_r. change (strlen []) with 0. rewrite Z.add_0_r.
    repeat split; try reflexivity; try lia. rewrite HP. exact Hm.
Qed.

Lemma getBase64Info_partition_witness :
  ∃ info, getBase64Info (lit "TWFuTQ") = Ok info
    ∧ validString info ++ paddingString info = lit "TWFuTQ=="
    ∧ validLength info + paddingLength info = 8.
Proof.
  eexists. split; [vm_compute; reflexivity |].
  match goal with
  | |- ?a ++ ?b = _ ∧ _ =>
      pose proof (getBase64Info_partition (lit "TWFuTQ") _
                    ltac:(vm_compute; reflexivity)) as H
  end.
  split; [apply H | apply H].
Defined.

Lemma padded_length_0 (s : jsstring) :
  getPaddingLength (s ++ replicate (Z.to_nat (getPaddingLength s)) eq_sign) = 0.
Proof.
  pose proof (getPaddingLength_range s) as [Hp [Hm _]].
  rewrite (getPaddingLength_mod (s ++ _)), strlen_app. unfold strlen at 2.
  rewrite length_replicate, Z2Nat.id by lia. rewrite Hm. reflexivity.
Qed.

Lemma elem_padded (s : jsstring) (n : nat) (c : N) :
  c ≠ eq_sign → (c ∈ s ++ replicate n eq_sign ↔ c ∈ s).
Proof.
  intros Hc. rewrite elem_of_app. split; [| left; assumption].
  intros [H | H]; [exact H |]. apply elem_of_replicate in H as [H _]. congruence.
Qed.

(** [isNormal] is true exactly when the input holds no [-] and no [_]. *)
Theorem isNormal_iff (s : jsstring) (info : Base64Info) :
  getBase64Info s = Ok info →
  (isNormal info = true ↔ (chr "-" ∉ s) ∧ (chr "_" ∉ s)).
Proof.
  unfold getBase64Info.
  destruct (isValidBase64String (Str s)); [| discriminate]. cbn [negb]. cbv zeta.
  rewrite !padded_copy. set (P := s ++ replicate _ eq_sign).
  intros E. injection E as <-. cbn [isNormal].
  rewrite bool_decide_eq_true. split.
  - intros EP. destruct (base64urlDecode_shape P) as [_ [_ [H1 H2]]].
    rewrite <- EP in H1, H2. unfold P in H1, H2.
    rewrite elem_padded in H1, H2 by discriminate. auto.
  - intros [H1 H2]. rewrite base64urlDecode_map.
    unfold P at 2 3. rewrite padded_length_0. simpl replicate. rewrite app_nil_r.
    symmetry. rewrite (map_id_on _ P).
    + apply map_id_on. intros c Hc.
      destruct (N.eqb_spec (chr "_") c) as [<- | _]; [| reflexivity].
      unfold P in Hc. rewrite elem_padded in Hc by discriminate. contradiction.
    + intros c Hc.
      destruct (N.eqb_spec (chr "-") c) as [<- | _]; [| reflexivity].
      unfold P in Hc. rewrite elem_padded in Hc by discriminate. contradiction.
Qed.

Lemma isNormal_iff_witness :
  ∃ info, getBase64Info (lit "a-_b") = Ok info ∧ isNormal info ≠ true.
Proof.
  eexists. split; [vm_compute; reflexivity |].
  intros H.
  apply (isNormal_iff (lit "a-_b") _ ltac:(vm_compute; reflexivity)) in H as [H _].
  apply H. solve_elem.
Defined.

(** [isUrlSafe] is true exactly when the input holds no [+] and no [/], does
    not end with [=] and has a length that is a multiple of 4: an unpadded
    string of another length is reported as not URL-safe. *)
Theorem isUrlSafe_iff (s : jsstring) (info : Base64Info) :
  getBase64Info s = Ok info →
  (isUrlSafe info = true
   ↔ (chr "+" ∉ s) ∧ (chr "/" ∉ s) ∧ list.last s ≠ Some eq_sign
     ∧ strlen s mod 4 = 0).
Proof.
  unfold getBase64Info.
  destruct (isValidBase64String (Str s)); [| discriminate]. cbn [negb]. cbv zeta.
  rewrite !padded_copy.
  pose proof (getPaddingLength_rounds_up_aux s) as [Hp [_ H0]].
  intros E. injection E as <-. cbn [isUrlSafe].
  rewrite bool_decide_eq_true. split.
  - intros EP.
    destruct (base64urlEncode_shape
                (s ++ replicate (Z.to_nat (getPaddingLength s)) eq_sign))
      as [H1 [H2 H3]].
    rewrite <- EP in H1, H2, H3.
    rewrite elem_padded in H1, H2 by discriminate.
    destruct (Z.to_nat (getPaddingLength s)) as [|n] eqn:En.
    + simpl in H3. rewrite app_nil_r in H3.
      repeat split; try assumption. apply H0. lia.
    + exfalso. apply H3. rewrite replicate_S_end, app_assoc. apply last_snoc.
  - intros [H1 [H2 [H3 H4]]]. apply H0 in H4. rewrite H4. simpl replicate.
    rewrite app_nil_r. symmetry.
    rewrite base64urlEncode_map, strip_pad_plus_id by exact H3.
    rewrite (map_id_on _ s).
    + apply map_id_on. intros c Hc.
      destruct (N.eqb_spec (chr "/") c) as [<- | _]; [contradiction | reflexivity].
    + intros c Hc.
      destruct (N.eqb_spec (chr "+") c) as [<- | _]; [contradiction | reflexivity].
Qed.

Lemma isUrlSafe_iff_witness :
  ∃ info, getBase64Info (lit "TQ") = Ok info ∧ isUrlSafe info ≠ true.
Proof.
  eexists. split; [vm_compute; reflexivity |].
  intros H.
  apply (isUrlSafe_iff (lit "TQ") _ ltac:(vm_compute; reflexivity)) in H
    as [_ [_ [_ H]]].
  vm_compute in H. discriminate H.
Defined.

(** ** One full group through the decoder *)

Lemma land_shifted (a b k : Z) :
  0 ≤ k → 0 ≤ b < 2 ^ k → Z.land (a * 2 ^ k) b = 0.
Proof.
  intros Hk Hb. apply Z.bits_inj'. intros n Hn.
  rewrite Z.land_spec, Z.bits_0.
  destruct (Z.lt_ge_cases n k) as [Hlt | Hge].
  - rewrite Z.mul_pow2_bits_low by lia. reflexivity.
  - rewrite <- (Z.mod_small b (2 ^ k)) by lia.
    rewrite Z.mod_pow2_bits_high by lia. apply andb_false_r.
Qed.

Lemma bor_add (a b k : Z) :
  0 ≤ k → 0 ≤ a → 0 ≤ b < 2 ^ k → a * 2 ^ k + b < 2 ^ 31 →
  bor (a * 2 ^ k) b = a * 2 ^ k + b.
Proof.
  intros Hk Ha Hb Hs. unfold bor.
  assert (0 ≤ a * 2 ^ k) by (apply Z.mul_nonneg_nonneg; lia).
  rewrite !ToInt32_small by lia.
  symmetry. apply Z.add_nocarry_lor, land_shifted; assumption.
Qed.

Lemma band_63 (x : Z) : 0 ≤ x < 2 ^ 31 → band x 63 = x mod 64.
Proof.
  intros Hx. unfold band. rewrite !ToInt32_small by lia.
  change 63 with (Z.ones 6). apply Z.land_ones. lia.
Qed.

Lemma band_255 (x : Z) : 0 ≤ x < 2 ^ 31 → band x 255 = x mod 256.
Proof.
  intros Hx. unfold band. rewrite !ToInt32_small by lia.
  change 255 with (Z.ones 8). apply Z.land_ones. lia.
Qed.

Lemma ToUint8_byte_val (b : byte) : ToUint8 (byte_val b) = b.
Proof.
  unfold ToUint8, byte_val. pose proof (Byte.to_N_bounded b).
  rewrite Z.mod_small, N2Z.id, Byte.of_to_N by lia. reflexivity.
Qed.

(** The 24-bit value assembled from four 6-bit values. *)
Lemma quad_value (i0 i1 i2 i3 : Z) :
  0 ≤ i0 < 64 → 0 ≤ i1 < 64 → 0 ≤ i2 < 64 → 0 ≤ i3 < 64 →
  bor (bor (bor (shl i0 18) (shl i1 12)) (shl i2 6)) i3
  = i0 * 262144 + i1 * 4096 + i2 * 64 + i3.
Proof.
  intros H0 H1 H2 H3.
  rewrite !shl_small by (change (2 ^ 31) with 2147483648;
                         first [change (2 ^ 18) with 262144
                               | change (2 ^ 12) with 4096
                               | change (2 ^ 6) with 64]; lia).
  change (2 ^ 18) with 262144. change (2 ^ 12) with 4096. change (2 ^ 6) with 64.
  pose proof (bor_add i0 (i1 * 4096) 18) as E1.
  pose proof (bor_add (i0 * 64 + i1) (i2 * 64) 12) as E2.
  pose proof (bor_add ((i0 * 64 + i1) * 64 + i2) i3 6) as E3.
  change (2 ^ 18) with 262144 in E1. change (2 ^ 12) with 4096 in E2.
  change (2 ^ 6) with 64 in E3.
  change (2 ^ 31) with 2147483648 in E1, E2, E3.
  rewrite E1 by lia.
  replace (i0 * 262144 + i1 * 4096) with ((i0 * 64 + i1) * 4096) by lia.
  rewrite E2 by lia.
  replace ((i0 * 64 + i1) * 4096 + i2 * 64)
    with (((i0 * 64 + i1) * 64 + i2) * 64) by lia.
  rewrite E3 by lia. lia.
Qed.

Lemma rev_at_char (s : jsstring) (i : Z) (c : N) (k : Z) :
  0 ≤ i → s !! Z.to_nat i = Some c → revLookup !! [c] = Some k →
  rev_at s i = k.
Proof.
  intros Hi Hs Hr. unfold rev_at, char_at.
  destruct (Z.ltb_spec i 0); [lia |].
  rewrite Hs. cbn [fmap option_fmap option_map property_key default].
  change (id [c]) with [c]. rewrite Hr. cbn [int32_of].
  apply ToInt32_small. pose proof (revLookup_six_bits_aux _ _ Hr). lia.
Qed.

Lemma decode_loop_step (s : jsstring) (len : Q) (i cb : Z) (u : list byte) :
  (inject_Z i < len)%Q →
  decode_loop s len i cb u
  = decode_loop s len (i + 4) (cb + 3) (decode_quad s i cb u).
Proof.
  intros H. funelim (decode_loop s len i cb u).
  - reflexivity.
  - exfalso. eapply Qlt_not_le; eassumption.
Qed.

Lemma decode_loop_exit (s : jsstring) (len : Q) (i cb : Z) (u : list byte) :
  (len <= inject_Z i)%Q → decode_loop s len i cb u = (i, cb, u).
Proof.
  intros H. funelim (decode_loop s len i cb u).
  - exfalso. eapply Qlt_not_le; eassumption.
  - reflexivity.
Qed.

Lemma indexOf_absent (s : jsstring) (c : N) : c ∉ s → indexOf s c = -1.
Proof.
  intros H. unfold indexOf. rewrite <- (app_nil_r s).
  rewrite indexOf_from_app by exact H. reflexivity.
Qed.

Lemma ToUint8_mod (a b : Z) : a mod 256 = b mod 256 → ToUint8 a = ToUint8 b.
Proof. intros H. unfold ToUint8. rewrite H. reflexivity. Qed.

Lemma rev_entry_not_pad (c : N) (k : Z) :
  revLookup !! [c] = Some k → c ≠ eq_sign.
Proof.
  intros H ->.
  assert (E : revLookup !! [eq_sign] = None) by (vm_compute; reflexivity).
  congruence.
Qed.

(** The three bytes the loop body writes for four 6-bit values. *)
Lemma decode_quad_bytes (s : jsstring) (c0 c1 c2 c3 : N) (i0 i1 i2 i3 : Z) :
  s !! 0%nat = Some c0 → s !! 1%nat = Some c1 →
  s !! 2%nat = Some c2 → s !! 3%nat = Some c3 →
  revLookup !! [c0] = Some i0 → revLookup !! [c1] = Some i1 →
  revLookup !! [c2] = Some i2 → revLookup !! [c3] = Some i3 →
  decode_quad s 0 0 [x00; x00; x00]
  = [ToUint8 (i0 * 4 + i1 / 16); ToUint8 (i1 * 16 + i2 / 4);
     ToUint8 (i2 * 64 + i3)].
Proof.
  intros S0 S1 S2 S3 R0 R1 R2 R3.
  pose proof (revLookup_six_bits_aux _ _ R0).
  pose proof (revLookup_six_bits_aux _ _ R1).
  pose proof (revLookup_six_bits_aux _ _ R2).
  pose proof (revLookup_six_bits_aux _ _ R3).
  unfold decode_quad.
  rewrite (rev_at_char s 0 c0 i0), (rev_at_char s (0 + 1) c1 i1),
    (rev_at_char s (0 + 2) c2 i2), (rev_at_char s (0 + 3) c3 i3)
    by (first [lia | assumption]).
  rewrite quad_value by assumption.
  set (t := i0 * 262144 + i1 * 4096 + i2 * 64 + i3).
  assert (Ht : 0 ≤ t < 16777216) by (unfold t; lia).
  change (2 ^ 31) with 2147483648 in *.
  rewrite (shr_small t 16), (shr_small t 8)
    by (change (2 ^ 31) with 2147483648; lia).
  change (2 ^ 16) with 65536. change (2 ^ 8) with 256.
  assert (0 ≤ t / 65536 < 256) by div_lia.
  assert (0 ≤ t / 256 < 65536) by div_lia.
  rewrite !band_255 by (change (2 ^ 31) with 2147483648; lia).
  unfold Uint8Array_set.
  change (0 + 2) with 2. change (0 + 1) with 1.
  change (2 <? 0) with false. change (1 <? 0) with false.
  change (0 <? 0) with false. cbv iota.
  change (Z.to_nat 0) with 0%nat. change (Z.to_nat 1) with 1%nat.
  change (Z.to_nat 2) with 2%nat.
  cbn [insert list_insert].
  f_equal; [| f_equal; [| f_equal]]; apply ToUint8_mod; unfold t; div_lia.
Qed.

Lemma toUint8Array_quad (c0 c1 c2 c3 : N) (i0 i1 i2 i3 : Z) :
  isValidBase64String (Str [c0; c1; c2; c3]) = true →
  revLookup !! [c0] = Some i0 → revLookup !! [c1] = Some i1 →
  revLookup !! [c2] = Some i2 → revLookup !! [c3] = Some i3 →
  toUint8Array [c0; c1; c2; c3]
  = Ok [ToUint8 (i0 * 4 + i1 / 16); ToUint8 (i1 * 16 + i2 / 4);
        ToUint8 (i2 * 64 + i3)].
Proof.
  intros Hv R0 R1 R2 R3.
  assert (Hne : eq_sign ∉ [c0; c1; c2; c3]).
  { intros Hin. repeat (apply elem_of_cons in Hin as [Hin | Hin];
      [symmetry in Hin; revert Hin; eapply rev_entry_not_pad; eassumption |]).
    inversion Hin. }
  assert (Hinfo : ∃ info, getBase64Info [c0; c1; c2; c3] = Ok info
                          ∧ validLength info = 4 ∧ paddingLength info = 0).
  { unfold getBase64Info. rewrite Hv. cbn [negb]. cbv zeta.
    eexists. split; [reflexivity |]. cbn [validLength paddingLength].
    change (Z.rem (strlen [c0; c1; c2; c3]) 4 >? 0) with false. cbv iota.
    rewrite indexOf_absent by exact Hne. split; reflexivity. }
  destruct Hinfo as [info [Hi [Hvl Hpl]]].
  unfold toUint8Array. rewrite Hi. cbn [bind].
  assert (HU : Uint8Array_new (getByteLength [c0; c1; c2; c3])
               = Ok [x00; x00; x00]) by (vm_compute; reflexivity).
  rewrite HU. cbn [bind]. rewrite Hvl, Hpl.
  rewrite decode_loop_step by reflexivity.
  rewrite decode_loop_exit by (vm_compute; discriminate).
  change (0 =? 2) with false. change (0 =? 1) with false. cbv iota beta.
  f_equal. apply (decode_quad_bytes _ c0 c1 c2 c3); first [reflexivity | assumption].
Qed.

(** A four-character string that the validator accepts and whose characters
    have the reverse entries i0..i3 decodes to the three bytes of the 24-bit
    value they form. *)
Theorem toUint8Array_one_group (c0 c1 c2 c3 : N) (i0 i1 i2 i3 : Z) :
  isValidBase64String (Str [c0; c1; c2; c3]) = true →
  revLookup !! [c0] = Some i0 → revLookup !! [c1] = Some i1 →
  revLookup !! [c2] = Some i2 → revLookup !! [c3] = Some i3 →
  toUint8Array [c0; c1; c2; c3]
  = Ok [ToUint8 (i0 * 4 + i1 / 16); ToUint8 (i1 * 16 + i2 / 4);
        ToUint8 (i2 * 64 + i3)].
Proof. exact (toUint8Array_quad c0 c1 c2 c3 i0 i1 i2 i3). Qed.

Lemma toUint8Array_one_group_witness :
  toUint8Array (lit "TWFu") = Ok [ToUint8 77; ToUint8 97; ToUint8 110].
Proof.
  apply (toUint8Array_one_group (chr "T") (chr "W") (chr "F") (chr "u") 19 22 5 46);
    vm_compute; reflexivity.
Defined.

(** ** The encoder, group by group *)

Lemma encode_loop_step (u : list byte) (forLen i : Z) (parts : list jsstring) :
  i < forLen →
  encode_loop u forLen i parts
  = encode_loop u forLen (i + 3) (parts ++ [encode_triplet u i]).
Proof.
  intros H. funelim (encode_loop u forLen i parts); [reflexivity | lia].
Qed.

Lemma encode_loop_exit (u : list byte) (forLen i : Z) (parts : list jsstring) :
  forLen ≤ i → encode_loop u forLen i parts = parts.
Proof.
  intros H. funelim (encode_loop u forLen i parts); [lia | reflexivity].
Qed.

Lemma fromUint8Array_valid (B : list byte) :
  isValidBase64String (Str (fromUint8Array B)) = true.
Proof.
  destruct (fromUint8Array_shape B) as [body [pad [E [Hbody [Hpad _]]]]].
  destruct (pad_cases pad Hpad) as [Hm [_ Hsp]].
  rewrite E. apply isValid_iff. left. unfold stripped.
  rewrite remove_runs_id.
  - rewrite strip_pad_0_2_app by (try apply code_chars_no_pad; assumption).
    apply code_chars_elem, Hbody.
  - apply Forall_app. split; [| exact Hsp].
    eapply Forall_impl; [| exact Hbody]. intros c Hc. apply code_char_plain, Hc.
Qed.

Lemma lookup_str_rev (k : Z) :
  0 ≤ k < 64 → ∃ c, lookup_str k = [c] ∧ revLookup !! [c] = Some k.
Proof.
  intros Hk. destruct (reverse_of_forward_aux k Hk) as [c [Hl Hr]].
  exists c. unfold lookup_str. rewrite Hl. split; [reflexivity | exact Hr].
Qed.

(** The 24-bit value of three bytes. *)
Lemma triplet_value (v0 v1 v2 : Z) :
  0 ≤ v0 ≤ 255 → 0 ≤ v1 ≤ 255 → 0 ≤ v2 ≤ 255 →
  bor (bor (shl v0 16) (shl v1 8)) v2 = v0 * 65536 + v1 * 256 + v2.
Proof.
  intros H0 H1 H2.
  rewrite !shl_small by (change (2 ^ 31) with 2147483648;
                         first [change (2 ^ 16) with 65536
                               | change (2 ^ 8) with 256]; lia).
  change (2 ^ 16) with 65536. change (2 ^ 8) with 256.
  pose proof (bor_add v0 (v1 * 256) 16) as E1.
  pose proof (bor_add (v0 * 256 + v1) v2 8) as E2.
  change (2 ^ 16) with 65536 in E1. change (2 ^ 8) with 256 in E2.
  change (2 ^ 31) with 2147483648 in E1, E2.
  rewrite E1 by lia.
  replace (v0 * 65536 + v1 * 256) with ((v0 * 256 + v1) * 256) by lia.
  rewrite E2 by lia. lia.
Qed.

(** The four characters of a full triplet, with their reverse entries. *)
Lemma encode_triplet_chars (b0 b1 b2 : byte) :
  let t := byte_val b0 * 65536 + byte_val b1 * 256 + byte_val b2 in
  ∃ c0 c1 c2 c3,
    encode_triplet [b0; b1; b2] 0 = [c0; c1; c2; c3]
    ∧ revLookup !! [c0] = Some (t / 262144)
    ∧ revLookup !! [c1] = Some (t / 4096 mod 64)
    ∧ revLookup !! [c2] = Some (t / 64 mod 64)
    ∧ revLookup !! [c3] = Some (t mod 64).
Proof.
  intros t. pose proof (byte_val_range b0). pose proof (byte_val_range b1).
  pose proof (byte_val_range b2).
  assert (Ht : 0 ≤ t < 16777216) by (unfold t; lia).
  unfold encode_triplet.
  change (Uint8Array_get [b0; b1; b2] 0) with (Some (byte_val b0)).
  change (Uint8Array_get [b0; b1; b2] (0 + 1)) with (Some (byte_val b1)).
  change (Uint8Array_get [b0; b1; b2] (0 + 2)) with (Some (byte_val b2)).
  cbn [int32_of].
  rewrite !ToInt32_small by (change (2 ^ 31) with 2147483648; lia).
  rewrite triplet_value by assumption. fold t.
  rewrite (shr_small t 18), (shr_small t 12), (shr_small t 6)
    by (change (2 ^ 31) with 2147483648; lia).
  change (2 ^ 18) with 262144. change (2 ^ 12) with 4096. change (2 ^ 6) with 64.
  assert (0 ≤ t / 262144 < 64) by div_lia.
  assert (0 ≤ t / 4096 < 4096) by div_lia.
  assert (0 ≤ t / 64 < 262144) by div_lia.
  rewrite !band_63 by (change (2 ^ 31) with 2147483648; lia).
  rewrite (Z.mod_small (t / 262144)) by lia.
  destruct (lookup_str_rev (t / 262144)) as [c0 [-> R0]]; [lia |].
  destruct (lookup_str_rev (t / 4096 mod 64)) as [c1 [-> R1]]; [div_lia |].
  destruct (lookup_str_rev (t / 64 mod 64)) as [c2 [-> R2]]; [div_lia |].
  destruct (lookup_str_rev (t mod 64)) as [c3 [-> R3]]; [div_lia |].
  exists c0, c1, c2, c3. repeat split; assumption.
Qed.

Lemma fromUint8Array_three (b0 b1 b2 : byte) :
  fromUint8Array [b0; b1; b2] = encode_triplet [b0; b1; b2] 0.
Proof.
  unfold fromUint8Array. cbv zeta.
  change (Z.of_nat (length [b0; b1; b2])) with 3.
  change (Z.rem 3 3) with 0. change (3 - 0) with 3.
  rewrite encode_loop_step by lia. rewrite encode_loop_exit by lia.
  change (0 =? 1) with false. change (0 =? 2) with false. cbv iota.
  cbn [app concat]. apply app_nil_r.
Qed.

(** The round trip holds on every buffer of exactly three bytes. *)
Theorem round_trip_three_bytes (b0 b1 b2 : byte) :
  toUint8Array (fromUint8Array [b0; b1; b2]) = Ok [b0; b1; b2].
Proof.
  pose proof (fromUint8Array_valid [b0; b1; b2]) as Hv.
  rewrite fromUint8Array_three in *.
  destruct (encode_triplet_chars b0 b1 b2) as [c0 [c1 [c2 [c3 [E [R0 [R1 [R2 R3]]]]]]]].
  rewrite E in *.
  rewrite (toUint8Array_quad c0 c1 c2 c3 _ _ _ _ Hv R0 R1 R2 R3).
  pose proof (byte_val_range b0). pose proof (byte_val_range b1).
  pose proof (byte_val_range b2).
  f_equal. f_equal; [| f_equal; [| f_equal]];
    (etransitivity; [| apply ToUint8_byte_val]); apply ToUint8_mod; div_lia.
Qed.

(** The output is the groups of the loop followed by the last part. *)
Lemma fromUint8Array_parts (u : list byte) :
  fromUint8Array u
  = concat (encode_loop u (Z.of_nat (length u) - Z.rem (Z.of_nat (length u)) 3) 0 [])
    ++ encode_tail u.
Proof.
  unfold fromUint8Array, encode_tail. cbv zeta.
  destruct (Z.rem (Z.of_nat (length u)) 3 =? 1);
    [| destruct (Z.rem (Z.of_nat (length u)) 3 =? 2)].
  - rewrite concat_app. cbn [concat]. rewrite app_nil_r. reflexivity.
  - rewrite concat_app. cbn [concat]. rewrite app_nil_r. reflexivity.
  - rewrite app_nil_r. reflexivity.
Qed.

Lemma encode_loop_parts (k : nat) :
  ∀ (u : list byte) (forLen i : Z) (parts : list jsstring),
    forLen - i ≤ Z.of_nat k →
    encode_loop u forLen i parts = parts ++ encode_loop u forLen i [].
Proof.
  induction k as [|k IH]; intros u forLen i parts Hk.
  - rewrite !(encode_loop_exit u forLen i) by lia. rewrite app_nil_r. reflexivity.
  - destruct (Z.lt_ge_cases i forLen) as [Hlt | Hge].
    + rewrite !(encode_loop_step u forLen i) by exact Hlt.
      rewrite (IH u forLen (i + 3) (parts ++ _)) by lia.
      rewrite (IH u forLen (i + 3) ([] ++ _)) by lia.
      rewrite app_nil_l, <- app_assoc. reflexivity.
    + rewrite !(encode_loop_exit u forLen i) by lia. rewrite app_nil_r. reflexivity.
Qed.

Lemma Uint8Array_get_app_l (A B : list byte) (i : Z) :
  i < Z.of_nat (length A) → Uint8Array_get (A ++ B) i = Uint8Array_get A i.
Proof.
  intros H. unfold Uint8Array_get. destruct (Z.ltb_spec i 0); [reflexivity |].
  rewrite lookup_app_l by lia. reflexivity.
Qed.

Lemma Uint8Array_get_app_r (A B : list byte) (i : Z) :
  0 ≤ i → Uint8Array_get (A ++ B) (Z.of_nat (length A) + i) = Uint8Array_get B i.
Proof.
  intros H. unfold Uint8Array_get.
  destruct (Z.ltb_spec (Z.of_nat (length A) + i) 0); [lia |].
  destruct (Z.ltb_spec i 0); [lia |].
  rewrite lookup_app_r by lia. do 2 f_equal. lia.
Qed.

Lemma encode_triplet_app_l (A B : list byte) (i : Z) :
  i + 3 ≤ Z.of_nat (length A) →
  encode_triplet (A ++ B) i = encode_triplet A i.
Proof.
  intros H. unfold encode_triplet.
  rewrite !Uint8Array_get_app_l by lia. reflexivity.
Qed.

Lemma encode_triplet_app_r (A B : list byte) (i : Z) :
  0 ≤ i →
  encode_triplet (A ++ B) (Z.of_nat (length A) + i) = encode_triplet B i.
Proof.
  intros H. unfold encode_triplet.
  rewrite <- !Z.add_assoc, !Uint8Array_get_app_r by lia. reflexivity.
Qed.

Lemma encode_loop_app_l (k : nat) :
  ∀ (A B : list byte) (i : Z),
    i + 3 * Z.of_nat k ≤ Z.of_nat (length A) →
    encode_loop (A ++ B) (i + 3 * Z.of_nat k) i []
    = encode_loop A (i + 3 * Z.of_nat k) i [].
Proof.
  induction k as [|k IH]; intros A B i H.
  - rewrite !encode_loop_exit by lia. reflexivity.
  - rewrite !(encode_loop_step _ _ i) by lia.
    rewrite (encode_loop_parts (3 * S k) (A ++ B)), (encode_loop_parts (3 * S k) A)
      by lia.
    rewrite encode_triplet_app_l by lia.
    replace (i + 3 * Z.of_nat (S k)) with (i + 3 + 3 * Z.of_nat k) by lia.
    rewrite IH by lia. reflexivity.
Qed.

Lemma encode_loop_app_r (k : nat) :
  ∀ (A B : list byte) (n i : Z),
    0 ≤ i → n - i ≤ Z.of_nat k →
    encode_loop (A ++ B) (Z.of_nat (length A) + n) (Z.of_nat (length A) + i) []
    = encode_loop B n i [].
Proof.
  induction k as [|k IH]; intros A B n i Hi H.
  - rewrite !encode_loop_exit by lia. reflexivity.
  - destruct (Z.lt_ge_cases i n) as [Hlt | Hge].
    + rewrite !(encode_loop_step _ _ _ []) by lia.
      rewrite (encode_loop_parts (S k) (A ++ B)), (encode_loop_parts (S k) B) by lia.
      rewrite encode_triplet_app_r by lia.
      rewrite <- Z.add_assoc, IH by lia. reflexivity.
    + rewrite !encode_loop_exit by lia. reflexivity.
Qed.

Lemma encode_loop_split (k : nat) :
  ∀ (u : list byte) (n i : Z),
    i + 3 * Z.of_nat k ≤ n →
    encode_loop u n i []
    = encode_loop u (i + 3 * Z.of_nat k) i []
      ++ encode_loop u n (i + 3 * Z.of_nat k) [].
Proof.
  induction k as [|k IH]; intros u n i H.
  - rewrite (encode_loop_exit u (i + 3 * Z.of_nat 0)) by lia.
    replace (i + 3 * Z.of_nat 0) with i by lia. reflexivity.
  - rewrite (encode_loop_step u n i), (encode_loop_step u (i + 3 * Z.of_nat (S k)) i)
      by lia.
    rewrite (encode_loop_parts (Z.to_nat (n - i)) u n),
      (encode_loop_parts (3 * S k) u (i + _)) by lia.
    replace (i + 3 * Z.of_nat (S k)) with (i + 3 + 3 * Z.of_nat k) by lia.
    rewrite (IH u n (i + 3)) by lia. rewrite <- app_assoc. reflexivity.
Qed.

Lemma encode_tail_app (A B : list byte) :
  Z.of_nat (length A) mod 3 = 0 → encode_tail (A ++ B) = encode_tail B.
Proof.
  intros HA. unfold encode_tail. cbv zeta.
  rewrite length_app, Nat2Z.inj_add.
  set (a := Z.of_nat (length A)) in *. set (b := Z.of_nat (length B)).
  assert (Ha : 0 ≤ a) by (unfold a; lia).
  assert (Hb : 0 ≤ b) by (unfold b; lia).
  assert (Er : Z.rem (a + b) 3 = Z.rem b 3)
    by (rewrite !Z.rem_mod_nonneg by lia; div_lia).
  rewrite Er.
  assert (Hr : Z.rem b 3 = b mod 3) by (apply Z.rem_mod_nonneg; lia).
  destruct (Z.eqb_spec (Z.rem b 3) 1) as [E1 | _];
    [| destruct (Z.eqb_spec (Z.rem b 3) 2) as [E2 | _]; [| reflexivity]].
  - replace (a + b - 1) with (a + (b - 1)) by lia.
    unfold a. rewrite Uint8Array_get_app_r by div_lia. reflexivity.
  - replace (a + b - 1) with (a + (b - 1)) by lia.
    replace (a + b - 2) with (a + (b - 2)) by lia.
    unfold a. rewrite !Uint8Array_get_app_r by div_lia. reflexivity.
Qed.

(** Encoding is compositional on 3-byte boundaries: when [len(A)] is a
    multiple of 3, the encoding of [A] followed by [B] is the encoding of [A]
    followed by the encoding of [B]. *)
Theorem fromUint8Array_app (A B : list byte) :
  Z.of_nat (length A) mod 3 = 0 →
  fromUint8Array (A ++ B) = fromUint8Array A ++ fromUint8Array B.
Proof.
  intros HA. rewrite !fromUint8Array_parts.
  rewrite encode_tail_app by exact HA.
  rewrite length_app, Nat2Z.inj_add.
  set (a := Z.of_nat (length A)) in *. set (b := Z.of_nat (length B)).
  assert (Ha : 0 ≤ a) by (unfold a; lia).
  assert (Hb : 0 ≤ b) by (unfold b; lia).
  assert (Er : Z.rem (a + b) 3 = Z.rem b 3)
    by (rewrite !Z.rem_mod_nonneg by lia; div_lia).
  assert (Ea : Z.rem a 3 = 0) by (rewrite Z.rem_mod_nonneg by lia; exact HA).
  assert (Hr : 0 ≤ Z.rem b 3 ≤ b) by (rewrite Z.rem_mod_nonneg by lia; div_lia).
  rewrite Er, Ea. replace (a - 0) with a by lia.
  assert (Ek : a = 0 + 3 * Z.of_nat (Z.to_nat (a / 3))) by div_lia.
  assert (HtA : encode_tail A = []).
  { unfold encode_tail. cbv zeta. fold a. rewrite Ea. reflexivity. }
  rewrite HtA, app_nil_r.
  rewrite (encode_loop_split (Z.to_nat (a / 3)) (A ++ B) (a + b - Z.rem b 3) 0) by lia.
  rewrite <- Ek.
  rewrite Ek at 1 3. rewrite encode_loop_app_l by (rewrite <- Ek; unfold a; lia).
  rewrite <- Ek.
  replace (a + b - Z.rem b 3) with (a + (b - Z.rem b 3)) by lia.
  replace (encode_loop (A ++ B) (a + (b - Z.rem b 3)) a [])
    with (encode_loop (A ++ B) (a + (b - Z.rem b 3)) (a + 0) [])
    by (rewrite Z.add_0_r; reflexivity).
  unfold a at 2 3.
  rewrite (encode_loop_app_r (Z.to_nat b) A B) by lia.
  rewrite concat_app, <- app_assoc. reflexivity.
Qed.

Lemma fromUint8Array_app_witness :
  fromUint8Array (bytes [77; 97; 110] ++ bytes [77])
  = fromUint8Array (bytes [77; 97; 110]) ++ fromUint8Array (bytes [77]).
Proof.
  apply (fromUint8Array_app (bytes [77; 97; 110]) (bytes [77])). reflexivity.
Defined.

(** ** Decoding the two alphabets *)

Lemma to_standard_cases (c : N) :
  (c = chr "-" ∧ to_standard c = chr "+")
  ∨ (c = chr "_" ∧ to_standard c = chr "/")
  ∨ (c ≠ chr "-" ∧ c ≠ chr "_" ∧ to_standard c = c).
Proof.
  unfold to_standard. cbv zeta.
  destruct (N.eqb_spec (chr "-") c) as [<- | H1]; [left; split; reflexivity |].
  destruct (N.eqb_spec (chr "_") c) as [<- | H2]; [right; left; split; reflexivity |].
  right; right. repeat split; congruence.
Qed.

Lemma to_standard_pad (c : N) : N.eqb (to_standard c) eq_sign = N.eqb c eq_sign.
Proof.
  destruct (to_standard_cases c) as [[-> ->] | [[-> ->] | [_ [_ ->]]]]; reflexivity.
Qed.

Lemma to_standard_space (c : N) : is_space (to_standard c) = is_space c.
Proof.
  destruct (to_standard_cases c) as [[-> ->] | [[-> ->] | [_ [_ ->]]]]; reflexivity.
Qed.

Lemma to_standard_rev (c : N) : revLookup !! [to_standard c] = revLookup !! [c].
Proof.
  destruct (to_standard_cases c) as [[-> ->] | [[-> ->] | [_ [_ ->]]]];
    [vm_compute; reflexivity | vm_compute; reflexivity | reflexivity].
Qed.

Lemma to_standard_class (c : N) :
  not_standard_char c = false ∨ not_urlsafe_char c = false →
  not_standard_char (to_standard c) = false.
Proof.
  destruct (to_standard_cases c) as [[-> ->] | [[-> ->] | [H1 [H2 ->]]]];
    [reflexivity | reflexivity |].
  intros [H | H]; [exact H |].
  unfold not_standard_char, not_urlsafe_char in *.
  apply N.eqb_neq in H1, H2. rewrite H1, H2 in H.
  apply negb_false_iff in H. apply negb_false_iff.
  rewrite !orb_false_r in H. rewrite H. reflexivity.
Qed.

Lemma base64urlDecode_to_standard (s : jsstring) :
  strlen s mod 4 = 0 → base64urlDecode s = map to_standard s.
Proof.
  intros H. rewrite base64urlDecode_map.
  destruct (getPaddingLength_rounds_up_aux s) as [_ [_ H0]].
  rewrite (proj2 H0 H). simpl replicate. rewrite app_nil_r, map_map. reflexivity.
Qed.

Lemma remove_runs_to_standard (s : jsstring) :
  remove_runs is_space (map to_standard s)
  = map to_standard (remove_runs is_space s).
Proof.
  unfold remove_runs. induction s as [|c s IH]; [reflexivity |].
  cbn [map List.filter]. rewrite to_standard_space, IH.
  destruct (is_space c); reflexivity.
Qed.

Lemma match_pad_0_2_to_standard (s : jsstring) :
  match_pad_0_2 (map to_standard s) = match_pad_0_2 s.
Proof.
  destruct s as [|a [|b [|c t]]]; cbn [map match_pad_0_2];
    rewrite ?to_standard_pad; reflexivity.
Qed.

Lemma strip_to_standard (s : jsstring) :
  replace_at_end match_pad_0_2 (map to_standard s)
  = map to_standard (replace_at_end match_pad_0_2 s).
Proof.
  induction s as [|c s IH]; [reflexivity |].
  change (map to_standard (c :: s)) with (to_standard c :: map to_standard s).
  rewrite !replace_at_end_cons.
  change (to_standard c :: map to_standard s) with (map to_standard (c :: s)).
  rewrite match_pad_0_2_to_standard.
  destruct (match_pad_0_2 (c :: s)); [reflexivity |].
  cbn [map]. rewrite IH. reflexivity.
Qed.

(** The standard rendering of an accepted string is accepted. *)
Lemma isValid_to_standard (s : jsstring) :
  isValidBase64String (Str s) = true →
  isValidBase64String (Str (map to_standard s)) = true.
Proof.
  unfold isValidBase64String.
  rewrite remove_runs_to_standard, strip_to_standard.
  set (r := replace_at_end match_pad_0_2 (remove_runs is_space s)).
  rewrite !orb_true_iff, !negb_true_iff, !test_class_false.
  intros H. left. intros c Hc.
  apply list_elem_of_In, in_map_iff in Hc as [x [<- Hx]].
  apply list_elem_of_In in Hx.
  apply to_standard_class. destruct H as [H | H]; [left | right]; apply H, Hx.
Qed.

Lemma indexOf_from_to_standard (s : jsstring) (i : Z) :
  indexOf_from eq_sign (map to_standard s) i = indexOf_from eq_sign s i.
Proof.
  revert i. induction s as [|c s IH]; intros i; [reflexivity |].
  cbn [map indexOf_from]. rewrite to_standard_pad, IH. reflexivity.
Qed.

Lemma strlen_map (f : N → N) (s : jsstring) : strlen (map f s) = strlen s.
Proof. unfold strlen. rewrite length_map. reflexivity. Qed.

Lemma rev_at_to_standard (s : jsstring) (i : Z) :
  rev_at (map to_standard s) i = rev_at s i.
Proof.
  unfold rev_at, char_at. destruct (i <? 0); [reflexivity |].
  change (map to_standard s) with (to_standard <$> s).
  rewrite list_lookup_fmap. destruct (s !! Z.to_nat i) as [c|]; [| reflexivity].
  cbn [fmap option_fmap option_map property_key default].
  change (id [to_standard c]) with [to_standard c]. change (id [c]) with [c].
  rewrite to_standard_rev. reflexivity.
Qed.

Lemma decode_quad_to_standard (s : jsstring) (i cb : Z) (u : list byte) :
  decode_quad (map to_standard s) i cb u = decode_quad s i cb u.
Proof. unfold decode_quad. rewrite !rev_at_to_standard. reflexivity. Qed.

Lemma decode_loop_to_standard (s : jsstring) (len : Q) (i cb : Z) (u : list byte) :
  decode_loop (map to_standard s) len i cb u = decode_loop s len i cb u.
Proof.
  funelim (decode_loop s len i cb u).
  - rewrite decode_loop_step by assumption.
    rewrite decode_quad_to_standard. assumption.
  - apply decode_loop_exit. assumption.
Qed.

(** The padding metadata does not depend on the alphabet. *)
Lemma getBase64Info_to_standard (s : jsstring) (info : Base64Info) :
  getBase64Info s = Ok info →
  ∃ info', getBase64Info (map to_standard s) = Ok info'
    ∧ validLength info' = validLength info
    ∧ paddingLength info' = paddingLength info.
Proof.
  unfold getBase64Info.
  destruct (isValidBase64String (Str s)) eqn:V; [| discriminate].
  rewrite (isValid_to_standard s V). cbn [negb]. cbv zeta.
  intros E. injection E as <-. eexists. split; [reflexivity |].
  cbn [validLength paddingLength].
  rewrite !padded_copy.
  assert (EP : map to_standard s
               ++ replicate (Z.to_nat (getPaddingLength (map to_standard s))) eq_sign
               = map to_standard
                   (s ++ replicate (Z.to_nat (getPaddingLength s)) eq_sign)).
  { rewrite map_app. f_equal.
    unfold getPaddingLength. rewrite strlen_map.
    induction (Z.to_nat _) as [|n IH]; [reflexivity |].
    cbn [replicate map]. rewrite <- IH. reflexivity. }
  rewrite !EP. set (P := s ++ replicate _ eq_sign).
  unfold indexOf. rewrite indexOf_from_to_standard, strlen_map.
  split; [reflexivity |].
  destruct (indexOf_from eq_sign P 0 >? 0); [| reflexivity].
  unfold slice_from, slice_pos. rewrite strlen_map.
  unfold strlen. rewrite !length_drop, length_map. reflexivity.
Qed.

(** The decoder does not tell the two alphabets apart: an accepted string
    whose length is a multiple of 4 decodes to the same bytes as its standard
    rendering. *)
Theorem toUint8Array_alphabet_independent (s : jsstring) :
  isValidBase64String (Str s) = true →
  strlen s mod 4 = 0 →
  toUint8Array (base64urlDecode s) = toUint8Array s.
Proof.
  intros Hv Hm. rewrite base64urlDecode_to_standard by exact Hm.
  destruct (getBase64Info_valid s Hv) as [info Hi].
  destruct (getBase64Info_to_standard s info Hi) as [info' [Hi' [Hvl Hpl]]].
  unfold toUint8Array. rewrite Hi, Hi'. cbn [bind].
  assert (Eb : getByteLength (map to_standard s) = getByteLength s).
  { unfold getByteLength, getPaddingLength. cbv zeta.
    rewrite !strlen_app, !strlen_map. reflexivity. }
  rewrite Eb. destruct (Uint8Array_new (getByteLength s)) as [u | e]; [| reflexivity].
  cbn [bind]. rewrite Hvl, Hpl, decode_loop_to_standard.
  destruct (decode_loop s _ 0 0 u) as [[i cb] u'].
  rewrite !rev_at_to_standard. reflexivity.
Qed.

Lemma toUint8Array_alphabet_independent_witness :
  toUint8Array (base64urlDecode (lit "-_8A")) = toUint8Array (lit "-_8A").
Proof.
  apply (toUint8Array_alphabet_independent (lit "-_8A")); vm_compute; reflexivity.
Defined.

(** On a string with no [+], no [/] and no [=], [base64urlEncode] undoes
    [base64urlDecode]. *)
Theorem urlsafe_decode_encode (s : jsstring) :
  chr "+" ∉ s → chr "/" ∉ s → eq_sign ∉ s →
  base64urlEncode (base64urlDecode s) = s.
Proof.
  intros Hp Hs He.
  rewrite base64urlDecode_map, !map_app.
  set (rep := replicate (Z.to_nat (getPaddingLength s)) eq_sign).
  assert (Er : map (λ c, if N.eqb (chr "_") c then chr "/" else c)
                 (map (λ c, if N.eqb (chr "-") c then chr "+" else c) rep) = rep).
  { unfold rep. induction (Z.to_nat _) as [|n IH]; [reflexivity |].
    cbn [replicate map]. rewrite IH. reflexivity. }
  rewrite Er, map_map. fold to_standard.
  change (λ x, to_standard x) with to_standard.
  rewrite base64urlEncode_map, strip_pad_plus_app.
  - rewrite !map_map. apply map_id_on. intros c Hc.
    destruct (to_standard_cases c) as [[-> ->] | [[-> ->] | [H1 [H2 ->]]]];
      [reflexivity | reflexivity |].
    destruct (N.eqb_spec (chr "+") c) as [<- | _]; [contradiction |].
    destruct (N.eqb_spec (chr "/") c) as [<- | _]; [contradiction | reflexivity].
  - intros Hin. apply list_elem_of_In, in_map_iff in Hin as [x [Hx Hin]].
    apply list_elem_of_In in Hin.
    pose proof (to_standard_pad x) as E. rewrite Hx, N.eqb_refl in E.
    symmetry in E. apply N.eqb_eq in E. subst x. contradiction.
  - unfold rep. apply Forall_forall. intros x Hx.
    apply list_elem_of_In, elem_of_replicate in Hx as [Hx _]. exact Hx.
Qed.

Lemma urlsafe_decode_encode_witness :
  base64urlEncode (base64urlDecode (lit "a-_bQ")) = lit "a-_bQ".
Proof.
  apply (urlsafe_decode_encode (lit "a-_bQ")); intros H;
    apply list_elem_of_In in H; vm_compute in H;
    repeat (destruct H as [H | H]; [discriminate H |]); exact H.
Defined.

(** The buffer [toUint8Array] returns has the length computed from the
    length of the input alone: with [p] the padding missing from the input,
    [(len + p) / 4 * 3 - p], whatever padding the input already carries. *)
Theorem toUint8Array_buffer_length (s : jsstring) (u : list byte) :
  toUint8Array s = Ok u →
  Z.of_nat (length u)
  = (strlen s + getPaddingLength s) / 4 * 3 - getPaddingLength s.
Proof. exact (toUint8Array_length s u). Qed.

Lemma toUint8Array_buffer_length_witness :
  Z.of_nat (length (bytes [77; 97; 110; 77; 0; 0])) = 6.
Proof.
  apply (toUint8Array_buffer_length (lit "TWFuTQ==")). vm_compute. reflexivity.
Defined.

(** ** The state-passing functions on the initialized tables *)

Lemma encode_loop_in_step (t : tables) (u : list byte) (forLen i : Z)
  (parts : list jsstring) :
  i < forLen →
  encode_loop_in t u forLen i parts
  = encode_loop_in t u forLen (i + 3) (parts ++ [encode_triplet_in t u i]).
Proof.
  intros H. funelim (encode_loop_in t u forLen i parts); [reflexivity | lia].
Qed.

Lemma encode_loop_in_exit (t : tables) (u : list byte) (forLen i : Z)
  (parts : list jsstring) :
  forLen ≤ i → encode_loop_in t u forLen i parts = parts.
Proof.
  intros H. funelim (encode_loop_in t u forLen i parts); [lia | reflexivity].
Qed.

Lemma lookup_str_in_initialized (k : Z) :
  lookup_str_in initialized k = lookup_str k.
Proof.
  unfold lookup_str_in, lookup_str, initialized, lookup. cbn [tbl_lookup].
  reflexivity.
Qed.

Lemma rev_at_in_initialized (s : jsstring) (i : Z) :
  rev_at_in initialized s i = rev_at s i.
Proof.
  unfold rev_at_in, rev_at, initialized, revLookup. cbn [tbl_revLookup].
  reflexivity.
Qed.

Ltac to_initialized :=
  repeat match goal with
         | |- context [lookup_str_in initialized ?k] =>
             rewrite (lookup_str_in_initialized k)
         | |- context [rev_at_in initialized ?s ?i] =>
             rewrite (rev_at_in_initialized s i)
         end.

Lemma encode_triplet_in_initialized (u : list byte) (i : Z) :
  encode_triplet_in initialized u i = encode_triplet u i.
Proof.
  unfold encode_triplet_in, encode_triplet. cbv zeta.
  to_initialized. reflexivity.
Qed.

Lemma decode_quad_in_initialized (s : jsstring) (i cb : Z) (u : list byte) :
  decode_quad_in initialized s i cb u = decode_quad s i cb u.
Proof.
  unfold decode_quad_in, decode_quad. cbv zeta.
  to_initialized. reflexivity.
Qed.

Lemma encode_loop_in_initialized (k : nat) :
  ∀ (u : list byte) (forLen i : Z) (parts : list jsstring),
    forLen - i ≤ Z.of_nat k →
    encode_loop_in initialized u forLen i parts = encode_loop u forLen i parts.
Proof.
  induction k as [|k IH]; intros u forLen i parts Hk.
  - rewrite encode_loop_in_exit, encode_loop_exit by lia. reflexivity.
  - destruct (Z.lt_ge_cases i forLen) as [Hlt | Hge].
    + rewrite encode_loop_in_step, encode_loop_step by exact Hlt.
      rewrite (encode_triplet_in_initialized u i). apply IH. lia.
    + rewrite encode_loop_in_exit, encode_loop_exit by lia. reflexivity.
Qed.

(** On the initialized tables the state-passing encoder is [fromUint8Array]. *)
Lemma fromUint8Array_in_initialized (u : list byte) :
  fromUint8Array_in initialized u = fromUint8Array u.
Proof.
  unfold fromUint8Array_in, fromUint8Array. cbv zeta.
  rewrite (encode_loop_in_initialized (length u)).
  - to_initialized. reflexivity.
  - assert (0 ≤ Z.rem (Z.of_nat (length u)) 3)
      by (rewrite Z.rem_mod_nonneg by lia; div_lia).
    lia.
Qed.

Lemma decode_loop_in_step (t : tables) (s : jsstring) (len : Q) (i cb : Z)
  (u : list byte) :
  (inject_Z i < len)%Q →
  decode_loop_in t s len i cb u
  = decode_loop_in t s len (i + 4) (cb + 3) (decode_quad_in t s i cb u).
Proof.
  intros H. funelim (decode_loop_in t s len i cb u).
  - reflexivity.
  - exfalso. eapply Qlt_not_le; eassumption.
Qed.

Lemma decode_loop_in_exit (t : tables) (s : jsstring) (len : Q) (i cb : Z)
  (u : list byte) :
  (len <= inject_Z i)%Q → decode_loop_in t s len i cb u = (i, cb, u).
Proof.
  intros H. funelim (decode_loop_in t s len i cb u).
  - exfalso. eapply Qlt_not_le; eassumption.
  - reflexivity.
Qed.

Lemma decode_loop_in_initialized (s : jsstring) (len : Q) (i cb : Z)
  (u : list byte) :
  decode_loop_in initialized s len i cb u = decode_loop s len i cb u.
Proof.
  funelim (decode_loop s len i cb u).
  - rewrite decode_loop_in_step by assumption.
    rewrite (decode_quad_in_initialized base64 i currentByte uint8Array).
    assumption.
  - apply decode_loop_in_exit. assumption.
Qed.

(** On the initialized tables the state-passing decoder is [toUint8Array]. *)
Lemma toUint8Array_in_initialized (s : jsstring) :
  toUint8Array_in initialized s = toUint8Array s.
Proof.
  unfold toUint8Array_in, toUint8Array.
  destruct (getBase64Info s) as [info | e]; [| reflexivity]. cbn [bind].
  destruct (Uint8Array_new (getByteLength s)) as [u | e]; [| reflexivity].
  cbn [bind]. rewrite decode_loop_in_initialized.
  destruct (decode_loop s _ 0 0 u) as [[i cb] u'].
  to_initialized. reflexivity.
Qed.

(** What each call answers on the initialized tables. *)
Lemma exec_initialized (c : call) :
  exec c initialized
  = (match c with
     | Call_getBase64Info base64 => Info (getBase64Info base64)
     | Call_fromUint8Array u => Text (fromUint8Array u)
     | Call_toUint8Array base64 => Bytes (toUint8Array base64)
     | Call_decodeBase64 base64 _ =>
         if negb (isValidBase64String (Str base64))
         then Raised invalid_base64 else Delegated
     | Call_encodeBase64 _ _ => Delegated
     end, initialized).
Proof.
  destruct c; cbn [exec].
  - reflexivity.
  - rewrite (fromUint8Array_in_initialized uint8Array). reflexivity.
  - rewrite (toUint8Array_in_initialized base64). reflexivity.
  - destruct (negb (isValidBase64String (Str base64))); reflexivity.
  - reflexivity.
Qed.
